(** * A shallow embedding of the secure filesystem server

    The development follows [src/index.ts]: the path sandbox
    ([validatePath]), the bounded recursive search ([searchFiles]) and the
    patch engine ([applyFileEdits]).

    - A JavaScript string is the list of its UTF-16 code units, each a [N].
    - A thrown exception is a value of [exn]; a function that may throw
      returns a [result].
    - The Node built-ins the code calls ([path], [os], [fs]) are modelled for
      a POSIX host; the packages [diff] and [minimatch], and the Unicode
      case tables, are interfaces ([DiffPackage], [MinimatchPackage],
      [CaseMapping]) that the definitions and theorems take as parameters.
    - A file is the list of its bytes. What the host decides about files,
      which file a path names, how its bytes are decoded and whether a
      write is fulfilled, is the interface [FileSystem]; the UTF-8 encoding
      of a write is [utf8Encode]. *)

From stdpp Require Import gmap list strings pretty.
From Stdlib Require Import NArith ZArith Lia.

Local Open Scope N_scope.
Local Open Scope nat_scope.
Local Open Scope list_scope.

(** ** JavaScript strings *)

Abbreviation jsstring := (list N).

(** A string literal, as the list of its code units. *)
Definition js (s : string) : jsstring :=
  map Ascii.N_of_ascii (String.list_ascii_of_string s).

Module JS.

(** [s.startsWith(p)] *)
Fixpoint startsWith (s p : jsstring) {struct p} : bool :=
  match p, s with
  | [], _ => true
  | _ :: _, [] => false
  | b :: p', a :: s' => N.eqb a b && startsWith s' p'
  end.

(** [s.endsWith(p)] *)
Definition endsWith (s p : jsstring) : bool :=
  startsWith (reverse s) (reverse p).

(** [s.indexOf(p)], with [None] for -1. *)
Fixpoint indexOf (s p : jsstring) : option nat :=
  if startsWith s p then Some 0
  else match s with
       | [] => None
       | _ :: s' => S <$> indexOf s' p
       end.

(** [s.includes(p)] *)
Definition includes (s p : jsstring) : bool :=
  match indexOf s p with Some _ => true | None => false end.

(** [s.slice(n)] for a non-negative [n] *)
Definition sliceFrom (n : nat) (s : jsstring) : jsstring := drop n s.

(** [s.split(sep)] for a separator of one code unit: the accumulator
    [cur] holds the piece being read, reversed. *)
Fixpoint splitAux (sep : N) (cur : jsstring) (s : jsstring) : list jsstring :=
  match s with
  | [] => [reverse cur]
  | c :: s' =>
      if N.eqb c sep then reverse cur :: splitAux sep [] s'
      else splitAux sep (c :: cur) s'
  end.

Definition split (sep : N) (s : jsstring) : list jsstring :=
  splitAux sep [] s.

(** [parts.join(sep)] *)
Fixpoint join (sep : jsstring) (parts : list jsstring) : jsstring :=
  match parts with
  | [] => []
  | [x] => x
  | x :: rest => x ++ sep ++ join sep rest
  end.

(** The code units that [trim], [trimStart] and the regular expression
    class [\s] treat as white space: ECMAScript's WhiteSpace and
    LineTerminator productions. *)
Definition isWhiteSpace (c : N) : bool :=
  ((9 <=? c) && (c <=? 13))%N
  || N.eqb c 32 || N.eqb c 160 || N.eqb c 5760
  || ((8192 <=? c) && (c <=? 8202))%N
  || N.eqb c 8232 || N.eqb c 8233 || N.eqb c 8239
  || N.eqb c 8287 || N.eqb c 12288 || N.eqb c 65279.

Fixpoint takeWhile (f : N -> bool) (s : jsstring) : jsstring :=
  match s with
  | [] => []
  | c :: s' => if f c then c :: takeWhile f s' else []
  end.

Fixpoint dropWhile (f : N -> bool) (s : jsstring) : jsstring :=
  match s with
  | [] => []
  | c :: s' => if f c then dropWhile f s' else s
  end.

(** [s.trimStart()] *)
Definition trimStart (s : jsstring) : jsstring := dropWhile isWhiteSpace s.

(** [s.trimEnd()] *)
Definition trimEnd (s : jsstring) : jsstring :=
  reverse (dropWhile isWhiteSpace (reverse s)).

(** [s.trim()] *)
Definition trim (s : jsstring) : jsstring := trimEnd (trimStart s).

(** [s.match(/^\s*/)?.[0] || ""]: the regular expression always matches,
    with the longest run of white space at the start of [s]. *)
Definition leadingWhiteSpace (s : jsstring) : jsstring :=
  takeWhile isWhiteSpace s.

(** [c.repeat(n)] for a string [c] of one code unit *)
Definition repeat (c : N) (n : nat) : jsstring := replicate n c.

Definition DOLLAR : N := 36.
Definition AMPERSAND : N := 38.
Definition APOSTROPHE : N := 39.
Definition BACKTICK : N := 96.
Definition LF : N := 10.
Definition CR : N := 13.
Definition SLASH : N := 47.
Definition DOT : N := 46.
Definition STAR : N := 42.
Definition SPACE : N := 32.

(** ECMAScript's GetSubstitution for a replacement template used with a
    string pattern: there are no captures, so [$1], [$<name>] and a [$]
    before any other unit stand for themselves. *)
Fixpoint getSubstitution (matched before after template : jsstring)
  : jsstring :=
  match template with
  | [] => []
  | c :: rest =>
      if N.eqb c DOLLAR then
        match rest with
        | [] => [c]
        | d :: rest' =>
            if N.eqb d DOLLAR then
              DOLLAR :: getSubstitution matched before after rest'
            else if N.eqb d AMPERSAND then
              matched ++ getSubstitution matched before after rest'
            else if N.eqb d BACKTICK then
              before ++ getSubstitution matched before after rest'
            else if N.eqb d APOSTROPHE then
              after ++ getSubstitution matched before after rest'
            else c :: getSubstitution matched before after rest
        end
      else c :: getSubstitution matched before after rest
  end.

(** [s.replace(pattern, replacement)] with a string pattern: the first
    occurrence only, the replacement expanded by [getSubstitution]. *)
Definition replace (s pattern replacement : jsstring) : jsstring :=
  match indexOf s pattern with
  | None => s
  | Some pos =>
      let before := take pos s in
      let after := drop (pos + length pattern) s in
      before ++ getSubstitution pattern before after replacement ++ after
  end.

End JS.

(** ** Exceptions *)

(** What the code throws: [new Error(message)], or the rejection of a
    file-system promise (ENOENT, EACCES, ...) for the given path. *)
Inductive exn :=
| Error (message : jsstring)
| SystemError (path : jsstring).

Inductive result (A : Type) :=
| Ok (value : A)
| Throw (e : exn).
Arguments Ok {A} value.
Arguments Throw {A} e.

(** [try { body } catch (error) { handler(error) }] *)
Definition tryCatch {A} (body : result A) (handler : exn -> result A)
  : result A :=
  match body with
  | Ok v => Ok v
  | Throw e => handler e
  end.

(** The error kinds of the specification, read off the message. *)
Definition isAccessDenied {A} (r : result A) : bool :=
  match r with
  | Throw (Error m) => JS.startsWith m (js "Access denied")
  | _ => false
  end.

Definition isParentMissing {A} (r : result A) : bool :=
  match r with
  | Throw (Error m) => JS.startsWith m (js "Parent directory does not exist")
  | _ => false
  end.

Definition isEditNotFound {A} (r : result A) : bool :=
  match r with
  | Throw (Error m) => JS.startsWith m (js "Could not find exact match for edit:")
  | _ => false
  end.

(** ** Node's [path] module on a POSIX host

    Node scans the characters of a path; the functions below compute the
    same strings from the list of segments between slashes. *)

Module path.

Import JS.

(** [path.isAbsolute(p)] *)
Definition isAbsolute (p : jsstring) : bool :=
  match p with
  | c :: _ => N.eqb c SLASH
  | [] => false
  end.

Definition isDotDot (seg : jsstring) : bool :=
  bool_decide (seg = [DOT; DOT]).

(** Node's [normalizeString]: [stack] holds the segments kept so far, the
    last one first. Empty segments and ["."] are dropped; [".."] removes the
    last kept segment unless there is none or it is [".."] itself, in which
    case it is kept only when [allowAboveRoot]. *)
Fixpoint normalizeSegments (allowAboveRoot : bool)
  (stack : list jsstring) (segs : list jsstring) : list jsstring :=
  match segs with
  | [] => reverse stack
  | seg :: rest =>
      if bool_decide (seg = []) || bool_decide (seg = [DOT]) then
        normalizeSegments allowAboveRoot stack rest
      else if isDotDot seg then
        match stack with
        | top :: below =>
            if isDotDot top then
              normalizeSegments allowAboveRoot
                (if allowAboveRoot then seg :: stack else stack) rest
            else normalizeSegments allowAboveRoot below rest
        | [] =>
            normalizeSegments allowAboveRoot
              (if allowAboveRoot then [seg] else []) rest
        end
      else normalizeSegments allowAboveRoot (seg :: stack) rest
  end.

Definition normalizeString (p : jsstring) (allowAboveRoot : bool) : jsstring :=
  join [SLASH] (normalizeSegments allowAboveRoot [] (split SLASH p)).

(** [path.normalize(p)] *)
Definition normalize (p : jsstring) : jsstring :=
  match p with
  | [] => [DOT]
  | _ =>
      let absolute := isAbsolute p in
      let trailingSeparator := endsWith p [SLASH] in
      let body := normalizeString p (negb absolute) in
      match body with
      | [] =>
          if absolute then [SLASH]
          else if trailingSeparator then [DOT; SLASH] else [DOT]
      | _ =>
          let body' := if trailingSeparator then body ++ [SLASH] else body in
          if absolute then SLASH :: body' else body'
      end
  end.

(** The loop of [path.resolve]: the arguments are read from the last to the
    first, then the working directory, until an absolute one is met; empty
    arguments are skipped. *)
Fixpoint resolveLoop (reversedArgs : list jsstring) (resolvedPath : jsstring)
  : jsstring * bool :=
  match reversedArgs with
  | [] => (resolvedPath, false)
  | p :: rest =>
      match p with
      | [] => resolveLoop rest resolvedPath
      | _ =>
          let resolvedPath' := p ++ [SLASH] ++ resolvedPath in
          if isAbsolute p then (resolvedPath', true)
          else resolveLoop rest resolvedPath'
      end
  end.

(** [path.resolve(...args)] in a process whose working directory is [cwd] *)
Definition resolve (cwd : jsstring) (args : list jsstring) : jsstring :=
  let '(resolvedPath, resolvedAbsolute) :=
    resolveLoop (reverse args ++ [cwd]) [] in
  let normalized := normalizeString resolvedPath (negb resolvedAbsolute) in
  if resolvedAbsolute then SLASH :: normalized
  else match normalized with [] => [DOT] | _ => normalized end.

(** [path.join(...args)] *)
Definition join (args : list jsstring) : jsstring :=
  match filter (fun a => a <> []) args with
  | [] => [DOT]
  | nonEmpty => normalize (JS.join [SLASH] nonEmpty)
  end.

(** [path.dirname(p)]: trailing slashes are ignored, then the text before the
    last slash is returned; only slashes after the first character count. *)
Definition dirname (p : jsstring) : jsstring :=
  match p with
  | [] => [DOT]
  | first :: others =>
      let hasRoot := N.eqb first SLASH in
      let noTrailing := dropWhile (N.eqb SLASH) (reverse others) in
      match dropWhile (fun c => negb (N.eqb SLASH c)) noTrailing with
      | [] => if hasRoot then [SLASH] else [DOT]
      | _ :: beforeSlash =>
          match beforeSlash with
          | [] => if hasRoot then [SLASH; SLASH] else [first]
          | _ => first :: reverse beforeSlash
          end
      end
  end.

(** The segments of a resolved path. *)
Definition segments (p : jsstring) : list jsstring :=
  filter (fun seg => seg <> []) (split SLASH p).

Fixpoint dropCommon (a b : list jsstring) : list jsstring * list jsstring :=
  match a, b with
  | x :: a', y :: b' =>
      if bool_decide (x = y) then dropCommon a' b' else (a, b)
  | _, _ => (a, b)
  end.

(** [path.relative(from, to)]: one [".."] for each segment of [from] below
    the common ancestor, then the segments of [to] below it. *)
Definition relative (cwd from to : jsstring) : jsstring :=
  let '(up, down) :=
    dropCommon (segments (resolve cwd [from])) (segments (resolve cwd [to])) in
  JS.join [SLASH] (map (fun _ => [DOT; DOT]) up ++ down).

End path.


(** ** The path sandbox *)

(** What [validatePath] reads from its surroundings: the user's home
    directory ([os.homedir()]), the working directory ([process.cwd()]), the
    outcome of [fs.realpath] on every path ([None] when the promise is
    rejected, as it is for a path that does not exist), and the allow-list
    computed at start-up. *)
Record Env := {
  homedir : jsstring;
  cwd : jsstring;
  realpath : jsstring -> option jsstring;
  allowedDirectories : list jsstring
}.

(** [normalizePath] *)
Definition normalizePath (p : jsstring) : jsstring := path.normalize p.

(** [expandHome] *)
Definition expandHome (env : Env) (filepath : jsstring) : jsstring :=
  if JS.startsWith filepath (js "~/") || bool_decide (filepath = js "~")
  then path.join [homedir env; JS.sliceFrom 1 filepath]
  else filepath.

(** [allowedDirectories.some((dir) => p.startsWith(dir))] *)
Definition isAllowed (env : Env) (p : jsstring) : bool :=
  existsb (fun dir => JS.startsWith p dir) (allowedDirectories env).

(** [await fs.realpath(p)] *)
Definition fsRealpath (env : Env) (p : jsstring) : result jsstring :=
  match realpath env p with
  | Some real => Ok real
  | None => Throw (SystemError p)
  end.

(** The value of [absolute] in [validatePath]. *)
Definition absolutePath (env : Env) (requestedPath : jsstring) : jsstring :=
  let expandedPath := expandHome env requestedPath in
  if path.isAbsolute expandedPath
  then path.resolve (cwd env) [expandedPath]
  else path.resolve (cwd env) [cwd env; expandedPath].

(** [validatePath] *)
Definition validatePath (env : Env) (requestedPath : jsstring)
  : result jsstring :=
  let absolute := absolutePath env requestedPath in
  let normalizedRequested := normalizePath absolute in
  if negb (isAllowed env normalizedRequested) then
    Throw (Error (js "Access denied - path outside allowed directories: "
                  ++ absolute ++ js " not in "
                  ++ JS.join (js ", ") (allowedDirectories env)))
  else
    tryCatch
      (match fsRealpath env absolute with
       | Throw e => Throw e
       | Ok realPath =>
           let normalizedReal := normalizePath realPath in
           if negb (isAllowed env normalizedReal) then
             Throw (Error
               (js "Access denied - symlink target outside allowed directories"))
           else Ok realPath
       end)
      (fun _ =>
         let parentDir := path.dirname absolute in
         tryCatch
           (match fsRealpath env parentDir with
            | Throw e => Throw e
            | Ok realParentPath =>
                let normalizedParent := normalizePath realParentPath in
                if negb (isAllowed env normalizedParent) then
                  Throw (Error
                    (js "Access denied - parent directory outside allowed directories"))
                else Ok absolute
            end)
           (fun _ =>
              Throw (Error (js "Parent directory does not exist: "
                            ++ parentDir)))).

(** A file system given by the list of the paths [fs.realpath] resolves,
    each with its canonical form. *)
Definition realpathOf (table : list (jsstring * jsstring)) (p : jsstring)
  : option jsstring :=
  snd <$> List.find (fun entry => bool_decide (entry.1 = p)) table.

(** One allowed root [/allowed]; [/allowed/link] is a symbolic link to
    [/etc], outside the root; [/allowed2], next to the root, holds a file;
    [/tmp/inside] is a symbolic link to [/allowed/sub]. *)
Definition exampleEnv : Env := {|
  homedir := js "/home/user";
  cwd := js "/home/user";
  realpath := realpathOf
    [ (js "/allowed", js "/allowed");
      (js "/allowed/sub", js "/allowed/sub");
      (js "/allowed/link", js "/etc");
      (js "/allowed/link/passwd", js "/etc/passwd");
      (js "/allowed2", js "/allowed2");
      (js "/allowed2/secret.txt", js "/allowed2/secret.txt");
      (js "/tmp", js "/tmp");
      (js "/tmp/inside", js "/allowed/sub");
      (js "/etc", js "/etc");
      (js "/etc/passwd", js "/etc/passwd") ];
  allowedDirectories := [js "/allowed"]
|}.


(** ** The bounded recursive search *)

(** The [minimatch] package: [minimatch path glob] stands for
    [minimatch(path, glob, { dot: true })]. *)
Class MinimatchPackage := {
  minimatch : jsstring -> jsstring -> bool
}.

(** [String.prototype.toLowerCase], which follows the Unicode case tables. *)
Class CaseMapping := {
  toLowerCase : jsstring -> jsstring
}.

(** What [fs.readdir(dir, { withFileTypes: true })] finds below a directory:
    every entry has a name and is either a directory, with the listing
    [readdir] gives for it ([None] when that promise is rejected), or
    something else (a file, a symbolic link, ...), for which
    [entry.isDirectory()] is false. *)
#[local] Unset Elimination Schemes.
Inductive Tree :=
| File
| Directory (listing : option (list (jsstring * Tree))).
#[local] Set Elimination Schemes.

(** The glob an exclude pattern is matched as. *)
Definition globPattern (pattern : jsstring) : jsstring :=
  if JS.includes pattern [JS.STAR] then pattern
  else js "**/" ++ pattern ++ js "/**".

Section Search.
Context `{MinimatchPackage} `{CaseMapping}.
Variable env : Env.
Variables (rootPath pattern : jsstring) (excludePatterns : list jsstring).

(** [shouldExclude] for the entry at [fullPath] *)
Definition shouldExclude (fullPath : jsstring) : bool :=
  let relativePath := path.relative (cwd env) rootPath fullPath in
  existsb (fun pattern => minimatch relativePath (globPattern pattern))
    excludePatterns.

(** The inner function [search] of [searchFiles]. [results] is the array the
    calls share; it is returned with the outcome, since what was pushed
    before an exception stays in it. *)
Fixpoint search (node : Tree) (currentPath : jsstring)
  (results : list jsstring) {struct node} : list jsstring * result unit :=
  match node with
  | File => (results, Throw (SystemError currentPath))
  | Directory None => (results, Throw (SystemError currentPath))
  | Directory (Some entries) =>
      (fix loop (entries : list (jsstring * Tree)) (results : list jsstring)
         {struct entries} : list jsstring * result unit :=
         match entries with
         | [] => (results, Ok tt)
         | (name, child) :: rest =>
             let fullPath := path.join [currentPath; name] in
             match validatePath env fullPath with
             | Throw _ => loop rest results
             | Ok _ =>
                 if shouldExclude fullPath then loop rest results
                 else
                   let results1 :=
                     if JS.includes (toLowerCase name) (toLowerCase pattern)
                     then results ++ [fullPath] else results in
                   match child with
                   | Directory _ =>
                       let '(results2, _) := search child fullPath results1 in
                       loop rest results2
                   | File => loop rest results1
                   end
             end
         end) entries results
  end.

(** [searchFiles], on the directory [root] found at [rootPath] *)
Definition searchFiles (root : Tree) : result (list jsstring) :=
  match search root rootPath [] with
  | (results, Ok _) => Ok results
  | (_, Throw e) => Throw e
  end.

End Search.

(** ** The patch engine *)

Record Edit := {
  oldText : jsstring;
  newText : jsstring
}.

(** One hunk of a structured patch, and the patch itself, as the [diff]
    package represents them. *)
Record Hunk := {
  hunkOldStart : N;
  hunkOldLines : N;
  hunkNewStart : N;
  hunkNewLines : N;
  hunkLines : list jsstring
}.

Record Patch := {
  oldFileName : jsstring;
  newFileName : jsstring;
  oldHeader : jsstring;
  newHeader : jsstring;
  hunks : list Hunk
}.

(** The [diff] package: [structuredPatch] compares two texts, with three
    lines of context, and [formatPatch] prints the outcome as a unified
    diff. *)
Class DiffPackage := {
  structuredPatch :
    jsstring -> jsstring -> jsstring -> jsstring -> jsstring -> jsstring -> Patch;
  formatPatch : Patch -> jsstring
}.

(** [createTwoFilesPatch] of the [diff] package *)
Definition createTwoFilesPatch `{DiffPackage}
  (oldName newName oldStr newStr oldHdr newHdr : jsstring) : jsstring :=
  formatPatch (structuredPatch oldName newName oldStr newStr oldHdr newHdr).

(** [normalizeLineEndings]: [text.replace(/\r\n/g, "\n")] *)
Fixpoint normalizeLineEndings (text : jsstring) : jsstring :=
  match text with
  | [] => []
  | c :: rest =>
      match rest with
      | d :: rest' =>
          if N.eqb c JS.CR && N.eqb d JS.LF
          then JS.LF :: normalizeLineEndings rest'
          else c :: normalizeLineEndings rest
      | [] => [c]
      end
  end.

(** [createUnifiedDiff] *)
Definition createUnifiedDiff `{DiffPackage}
  (originalContent newContent filepath : jsstring) : jsstring :=
  let normalizedOriginal := normalizeLineEndings originalContent in
  let normalizedNew := normalizeLineEndings newContent in
  createTwoFilesPatch filepath filepath normalizedOriginal normalizedNew
    (js "original") (js "modified").

(** [oldLines.every((oldLine, j) => oldLine.trim() === potentialMatch[j].trim())],
    from index [j] on. A missing [potentialMatch[j]] would raise a TypeError;
    the bounds of the loop over the windows exclude it. *)
Fixpoint everyLineMatches (oldLines potentialMatch : list jsstring) (j : nat)
  : bool :=
  match oldLines with
  | [] => true
  | oldLine :: rest =>
      match potentialMatch !! j with
      | Some contentLine =>
          bool_decide (JS.trim oldLine = JS.trim contentLine)
          && everyLineMatches rest potentialMatch (S j)
      | None => false
      end
  end.

(** The function mapped over the lines of the new text once the window at
    [contentLines[i]], whose indentation is [originalIndent], has matched. *)
Definition replacementLine (originalIndent : jsstring)
  (oldLines : list jsstring) (j : nat) (line : jsstring) : jsstring :=
  match j with
  | 0 => originalIndent ++ JS.trimStart line
  | _ =>
      let oldIndent :=
        match oldLines !! j with
        | Some oldLine => JS.leadingWhiteSpace oldLine
        | None => []
        end in
      let newIndent := JS.leadingWhiteSpace line in
      match oldIndent, newIndent with
      | _ :: _, _ :: _ =>
          let relativeIndent :=
            (Z.of_nat (length newIndent) - Z.of_nat (length oldIndent))%Z in
          originalIndent
            ++ JS.repeat JS.SPACE (Z.to_nat (Z.max 0 relativeIndent))
            ++ JS.trimStart line
      | _, _ => line
      end
  end.

(** The content after the window of [contentLines] at [i] is replaced. *)
Definition replaceWindow (oldLines contentLines : list jsstring) (i : nat)
  (normalizedNew : jsstring) : jsstring :=
  let originalIndent :=
    match contentLines !! i with
    | Some first => JS.leadingWhiteSpace first
    | None => []
    end in
  let newLines :=
    imap (replacementLine originalIndent oldLines)
      (JS.split JS.LF normalizedNew) in
  JS.join [JS.LF]
    (take i contentLines ++ newLines ++ drop (i + length oldLines) contentLines).

(** The loop [for (let i = 0; i <= contentLines.length - oldLines.length; i++)],
    entered at [i] with [remaining] iterations to go: the index of the first
    window that matches. *)
Fixpoint windowLoop (oldLines contentLines : list jsstring)
  (i remaining : nat) : option nat :=
  match remaining with
  | 0 => None
  | S remaining' =>
      let potentialMatch := take (length oldLines) (drop i contentLines) in
      if everyLineMatches oldLines potentialMatch 0 then Some i
      else windowLoop oldLines contentLines (S i) remaining'
  end.

(** The number of values [i] takes in that loop. *)
Definition windowCount (oldLines contentLines : list jsstring) : nat :=
  Z.to_nat (Z.of_nat (length contentLines) - Z.of_nat (length oldLines) + 1).

(** The body of the loop over the edits: the content after [edit]. *)
Definition applyEdit (modifiedContent : jsstring) (edit : Edit)
  : result jsstring :=
  let normalizedOld := normalizeLineEndings (oldText edit) in
  let normalizedNew := normalizeLineEndings (newText edit) in
  if JS.includes modifiedContent normalizedOld then
    Ok (JS.replace modifiedContent normalizedOld normalizedNew)
  else
    let oldLines := JS.split JS.LF normalizedOld in
    let contentLines := JS.split JS.LF modifiedContent in
    match windowLoop oldLines contentLines 0
            (windowCount oldLines contentLines) with
    | Some i => Ok (replaceWindow oldLines contentLines i normalizedNew)
    | None =>
        Throw (Error (js "Could not find exact match for edit:" ++ [JS.LF]
                      ++ oldText edit))
    end.

(** The loop over the edits, each applied to what the ones before it left. *)
Fixpoint applyEdits (modifiedContent : jsstring) (edits : list Edit)
  : result jsstring :=
  match edits with
  | [] => Ok modifiedContent
  | edit :: rest =>
      match applyEdit modifiedContent edit with
      | Ok next => applyEdits next rest
      | Throw e => Throw e
      end
  end.

(** [while (diff.includes("`".repeat(numBackticks))) numBackticks++], run for
    at most [fuel] tests of the condition; [None] when they do not suffice. *)
Fixpoint fenceLoop (fuel : nat) (diff : jsstring) (numBackticks : nat)
  : option nat :=
  match fuel with
  | 0 => None
  | S fuel' =>
      if JS.includes diff (JS.repeat JS.BACKTICK numBackticks)
      then fenceLoop fuel' diff (S numBackticks)
      else Some numBackticks
  end.

(** The length of the fence: a string of [n] code units holds no run of more
    than [n] backticks, so [S (length diff)] tests suffice. *)
Definition fenceLength (diff : jsstring) : option nat :=
  fenceLoop (S (length diff)) diff 3.

(** [formattedDiff] *)
Definition formatDiff (numBackticks : nat) (diff : jsstring) : jsstring :=
  JS.repeat JS.BACKTICK numBackticks ++ js "diff" ++ [JS.LF] ++ diff
    ++ JS.repeat JS.BACKTICK numBackticks ++ [JS.LF; JS.LF].

(** The bytes [fs.writeFile(path, text, "utf-8")] writes for a text, as
    [Buffer.from(text, "utf-8")] has them: a code unit below 0x80 is one
    byte, one below 0x800 two, a high surrogate followed by a low one is
    the four bytes of their code point, a surrogate that stands alone is
    written as U+FFFD (EF BF BD), any other code unit is three bytes. *)
Definition isHighSurrogate (c : N) : bool := (55296 <=? c)%N && (c <? 56320)%N.

Definition isLowSurrogate (c : N) : bool := (56320 <=? c)%N && (c <? 57344)%N.

Definition REPLACEMENT : list N := [239; 191; 189]%N.

Definition utf8Pair (high low : N) : list N :=
  let codePoint := (65536 + (high - 55296) * 1024 + (low - 56320))%N in
  [240 + codePoint / 262144; 128 + (codePoint / 4096) mod 64;
   128 + (codePoint / 64) mod 64; 128 + codePoint mod 64]%N.

Fixpoint utf8Encode (text : jsstring) : list N :=
  match text with
  | [] => []
  | c :: rest =>
      if (c <? 128)%N then c :: utf8Encode rest
      else if (c <? 2048)%N
      then [192 + c / 64; 128 + c mod 64]%N ++ utf8Encode rest
      else if isHighSurrogate c
      then match rest with
           | d :: rest' =>
               if isLowSurrogate d then utf8Pair c d ++ utf8Encode rest'
               else REPLACEMENT ++ utf8Encode rest
           | [] => REPLACEMENT
           end
      else if isLowSurrogate c then REPLACEMENT ++ utf8Encode rest
      else [224 + c / 4096; 128 + (c / 64) mod 64; 128 + c mod 64]%N
             ++ utf8Encode rest
  end.

(** How a call of [fs.writeFile] ends. When the promise is fulfilled the
    file holds the bytes written. When it is rejected the file is as it was
    ([Rejected None], a file that cannot be opened for writing) or holds
    what the write left of it ([Rejected (Some partial)], a write that
    stops half-way through the file it has truncated). *)
Inductive WriteOutcome :=
  | Fulfilled
  | Rejected (remains : option (list N)).

(** What the host decides: [fileAt] is the file a path names (two paths
    that are links or other spellings of one file name the same one),
    [utf8Decode] the text [fs.readFile(path, "utf-8")] makes of the bytes
    of a file, [writeOutcome] how a write of the given bytes at the given
    path ends. *)
Class FileSystem := {
  fileAt : jsstring -> jsstring;
  utf8Decode : list N -> jsstring;
  writeOutcome : jsstring -> list N -> WriteOutcome
}.

(** The files on disk: the bytes of each file that can be read. *)
Abbreviation Disk := (gmap jsstring (list N)).

(** [applyFileEdits], from the disk [disk] to the value returned or the
    exception thrown and the disk left behind. [None] stands for a run of
    the fence loop that does not end. The write comes last and is not
    guarded: its rejection is the rejection of [applyFileEdits]. *)
Definition applyFileEdits `{DiffPackage} `{FileSystem} (disk : Disk)
  (filePath : jsstring) (edits : list Edit) (dryRun : bool)
  : option (result jsstring * Disk) :=
  match disk !! fileAt filePath with
  | None => Some (Throw (SystemError filePath), disk)
  | Some raw =>
      let content := normalizeLineEndings (utf8Decode raw) in
      match applyEdits content edits with
      | Throw e => Some (Throw e, disk)
      | Ok modifiedContent =>
          let diff := createUnifiedDiff content modifiedContent filePath in
          match fenceLength diff with
          | None => None
          | Some numBackticks =>
              let formattedDiff := formatDiff numBackticks diff in
              if negb dryRun
              then
                let bytes := utf8Encode modifiedContent in
                match writeOutcome filePath bytes with
                | Fulfilled =>
                    Some (Ok formattedDiff, <[fileAt filePath := bytes]> disk)
                | Rejected None => Some (Throw (SystemError filePath), disk)
                | Rejected (Some partial) =>
                    Some (Throw (SystemError filePath),
                          <[fileAt filePath := partial]> disk)
                end
              else Some (Ok formattedDiff, disk)
          end
      end
  end.


(** ** Notions of the specification *)

(** Containment by path components: the segments of [dir] are the first
    segments of [p]. *)
Definition isWithin (dir p : jsstring) : bool :=
  bool_decide (path.segments dir `prefix_of` path.segments p).

Definition isWithinSome (dirs : list jsstring) (p : jsstring) : bool :=
  existsb (fun dir => isWithin dir p) dirs.

(** [pattern] occurs verbatim in [text]. *)
Definition occursIn (pattern text : jsstring) : Prop :=
  exists before after, text = before ++ pattern ++ after.

(** The window of [contentLines] that starts at line [i] matches
    [oldLines]: it lies within the content, and each of its lines equals the
    line of [oldLines] at the same place once both are trimmed. *)
Definition windowMatchesAt (oldLines contentLines : list jsstring) (i : nat)
  : Prop :=
  i + length oldLines <= length contentLines /\
  forall j oldLine,
    oldLines !! j = Some oldLine ->
    exists contentLine,
      contentLines !! (i + j) = Some contentLine /\
      JS.trim oldLine = JS.trim contentLine.


(** [template] holds one of the two-unit sequences that [replace] reads as
    a pattern in a replacement: a dollar sign followed at once by a dollar
    sign, an ampersand, a backtick or an apostrophe. *)
Definition isPatternUnit (d : N) : bool :=
  N.eqb d JS.DOLLAR || N.eqb d JS.AMPERSAND || N.eqb d JS.BACKTICK
  || N.eqb d JS.APOSTROPHE.

Fixpoint hasReplacementPattern (template : jsstring) : bool :=
  match template with
  | [] => false
  | c :: rest =>
      (N.eqb c JS.DOLLAR
       && match rest with d :: _ => isPatternUnit d | [] => false end)
      || hasReplacementPattern rest
  end.

(** The number of code units [c] at the start of [s]. *)
Fixpoint runAt (c : N) (s : jsstring) : nat :=
  match s with
  | a :: s' => if N.eqb a c then S (runAt c s') else 0
  | [] => 0
  end.

(** The length of the longest run of [c] in [s]. *)
Fixpoint longestRun (c : N) (s : jsstring) : nat :=
  match s with
  | [] => 0
  | _ :: s' => Nat.max (runAt c s) (longestRun c s')
  end.

(** The lines of a text. *)
Definition lines (text : jsstring) : list jsstring := JS.split JS.LF text.

(** A segment that [normalizeString] keeps as it is. *)
Definition plainSegment (seg : jsstring) : Prop :=
  seg <> [] /\ seg <> [JS.DOT] /\ seg <> [JS.DOT; JS.DOT].

(** The segments of a normalized path: plain ones, after [..] segments at
    the start when the path may climb above its root. *)
Definition normalSegments (allowAboveRoot : bool) (segs : list jsstring)
  : Prop :=
  exists k plain,
    segs = replicate k [JS.DOT; JS.DOT] ++ plain /\
    Forall plainSegment plain /\
    (allowAboveRoot = false -> k = 0).

(** ** Stand-ins for the packages, used in the examples *)

Definition decimal (n : N) : jsstring := js (pretty n).

(** One hunk that removes every line of the old text and adds every line of
    the new one. *)
Definition wholeTextHunk (oldStr newStr : jsstring) : Hunk := {|
  hunkOldStart := 1;
  hunkOldLines := N.of_nat (length (lines oldStr));
  hunkNewStart := 1;
  hunkNewLines := N.of_nat (length (lines newStr));
  hunkLines := map (fun l => js "-" ++ l) (lines oldStr)
               ++ map (fun l => js "+" ++ l) (lines newStr)
|}.

Definition formatHunk (h : Hunk) : list jsstring :=
  (js "@@ -" ++ decimal (hunkOldStart h) ++ js "," ++ decimal (hunkOldLines h)
   ++ js " +" ++ decimal (hunkNewStart h) ++ js "," ++ decimal (hunkNewLines h)
   ++ js " @@") :: hunkLines h.

(** A patch generator that has no hunk for equal texts and one hunk over the
    whole text otherwise, printed in the unified format. *)
#[local] Instance wholeTextDiff : DiffPackage := {|
  structuredPatch oldName newName oldStr newStr oldHdr newHdr := {|
    oldFileName := oldName;
    newFileName := newName;
    oldHeader := oldHdr;
    newHeader := newHdr;
    hunks := if bool_decide (oldStr = newStr) then []
             else [wholeTextHunk oldStr newStr]
  |};
  formatPatch patch :=
    JS.join [JS.LF]
      ([js "--- " ++ oldFileName patch ++ [9%N] ++ oldHeader patch;
        js "+++ " ++ newFileName patch ++ [9%N] ++ newHeader patch]
       ++ concat (map formatHunk (hunks patch)))
    ++ [JS.LF]
|}.

(** A host without links, whose files hold ASCII text (each byte is the
    code unit of its character) and take every write. *)
#[local] Instance plainFiles : FileSystem := {|
  fileAt p := p;
  utf8Decode bytes := bytes;
  writeOutcome _ _ := Fulfilled
|}.

(** The same host with files that cannot be opened for writing. *)
Definition readOnlyFiles : FileSystem := {|
  fileAt p := p;
  utf8Decode bytes := bytes;
  writeOutcome _ _ := Rejected None
|}.

(** A disk with one file, whose lines end in CR LF. *)
Definition exampleFile : jsstring := js "/allowed/notes.txt".

Definition exampleDisk : Disk :=
  {[ exampleFile := js "alpha" ++ [JS.CR; JS.LF] ++ js "  beta" ++ [JS.CR; JS.LF] ]}.

(** A text given by its lines. *)
Definition unlines (ls : list string) : jsstring :=
  JS.join [JS.LF] (map js ls).

(** An indented block after a heading, and an edit written without the
    indentation. *)
Definition exampleSource : jsstring :=
  unlines ["// guard"; "  if (x) {"; "    y();"; "  }"; ""].

Definition exampleEdit : Edit := {|
  oldText := unlines ["if (x) {"; "y();"; "}"];
  newText := unlines ["if (x) {"; "z();"; "}"]
|}.

(** A matcher for globs whose parts are [**] or plain names, after the
    segment walk of [minimatch] with [dot: true]: a plain part matches the
    segment equal to it, [**] matches any run of segments other than [.] and
    [..], and a path that ends before the glob does is not matched. *)
Definition isDots (seg : jsstring) : bool :=
  bool_decide (seg = [JS.DOT]) || bool_decide (seg = [JS.DOT; JS.DOT]).

Fixpoint matchSegments (glob file : list jsstring) {struct glob} : bool :=
  match glob with
  | [] =>
      match file with
      | [] => true
      | [seg] => bool_decide (seg = [])
      | _ => false
      end
  | part :: glob' =>
      match file with
      | [] => false
      | seg :: file' =>
          if bool_decide (part = js "**") then
            match glob' with
            | [] => forallb (fun seg => negb (isDots seg)) file
            | _ =>
                (fix swallow (file : list jsstring) : bool :=
                   match file with
                   | [] => false
                   | seg :: file' =>
                       matchSegments glob' file
                       || (negb (isDots seg) && swallow file')
                   end) file
            end
          else bool_decide (part = seg) && matchSegments glob' file'
      end
  end.

#[local] Instance segmentGlob : MinimatchPackage := {|
  minimatch p glob :=
    matchSegments (JS.split JS.SLASH glob) (JS.split JS.SLASH p)
|}.

(** Lower case for the letters A to Z. *)
#[local] Instance asciiLowerCase : CaseMapping := {|
  toLowerCase s :=
    map (fun c => if ((65 <=? c) && (c <=? 90))%N then (c + 32)%N else c) s
|}.

(** The directory [/allowed] of the examples: [a/b] holds [index.txt] and a
    directory [node_modules] with the file [x.txt]. *)
Definition exampleTree : Tree :=
  Directory (Some
    [ (js "a", Directory (Some
        [ (js "b", Directory (Some
            [ (js "index.txt", File);
              (js "node_modules", Directory (Some
                 [ (js "x.txt", File) ])) ])) ])) ]).

(** A host on which every path resolves to itself. *)
Definition plainEnv : Env := {|
  homedir := js "/home/user";
  cwd := js "/home/user";
  realpath := Some;
  allowedDirectories := [js "/allowed"]
|}.

(** ** Further functions of the server *)

(** The allow-list the server computes at start-up from its command-line
    arguments. *)
Definition allowedDirectoriesOf (env : Env) (args : list jsstring)
  : list jsstring :=
  map (fun dir => normalizePath (path.resolve (cwd env) [expandHome env dir]))
    args.

Section SearchLoop.
Context `{MinimatchPackage} `{CaseMapping}.
Variable env : Env.
Variables (rootPath pattern : jsstring) (excludePatterns : list jsstring).

(** The [for] loop of [search] over the entries of [currentPath], on its
    own. *)
Fixpoint searchEntries (currentPath : jsstring)
  (entries : list (jsstring * Tree)) (results : list jsstring)
  {struct entries} : list jsstring * result unit :=
  match entries with
  | [] => (results, Ok tt)
  | (name, child) :: rest =>
      let fullPath := path.join [currentPath; name] in
      match validatePath env fullPath with
      | Throw _ => searchEntries currentPath rest results
      | Ok _ =>
          if shouldExclude env rootPath excludePatterns fullPath
          then searchEntries currentPath rest results
          else
            let results1 :=
              if JS.includes (toLowerCase name) (toLowerCase pattern)
              then results ++ [fullPath] else results in
            match child with
            | Directory _ =>
                let '(results2, _) :=
                  search env rootPath pattern excludePatterns child fullPath
                    results1 in
                searchEntries currentPath rest results2
            | File => searchEntries currentPath rest results1
            end
      end
  end.

(** The directories [search] reads when started on [root] at [rootPath]: the
    root, and every directory entry of a directory it reads that passes
    [validatePath] and is not excluded. *)
Inductive Visits (root : Tree) : Tree -> jsstring -> Prop :=
| visits_root : Visits root root rootPath
| visits_entry (entries : list (jsstring * Tree)) (currentPath name : jsstring)
    (listing : option (list (jsstring * Tree))) (validPath : jsstring) :
    Visits root (Directory (Some entries)) currentPath ->
    (name, Directory listing) ∈ entries ->
    validatePath env (path.join [currentPath; name]) = Ok validPath ->
    shouldExclude env rootPath excludePatterns (path.join [currentPath; name])
    = false ->
    Visits root (Directory listing) (path.join [currentPath; name]).

End SearchLoop.

(** An entry of the tree the [directory_tree] tool returns: a file, or a
    directory with its children. *)
#[local] Unset Elimination Schemes.
Inductive TreeEntry :=
| FileEntry (name : jsstring)
| DirectoryEntry (name : jsstring) (children : list TreeEntry).
#[local] Set Elimination Schemes.

Definition entryName (entry : TreeEntry) : jsstring :=
  match entry with
  | FileEntry name => name
  | DirectoryEntry name _ => name
  end.

(** [buildTree] of the [directory_tree] tool, on the directory [node] found
    at [currentPath]; [built] is its array [result]. *)
Fixpoint buildTree (env : Env) (node : Tree) (currentPath : jsstring)
  {struct node} : result (list TreeEntry) :=
  match validatePath env currentPath with
  | Throw e => Throw e
  | Ok validPath =>
      match node with
      | File => Throw (SystemError validPath)
      | Directory None => Throw (SystemError validPath)
      | Directory (Some entries) =>
          (fix loop (entries : list (jsstring * Tree))
             (built : list TreeEntry) {struct entries}
             : result (list TreeEntry) :=
             match entries with
             | [] => Ok built
             | (name, child) :: rest =>
                 match child with
                 | Directory _ =>
                     let subPath := path.join [currentPath; name] in
                     match buildTree env child subPath with
                     | Throw e => Throw e
                     | Ok children =>
                         loop rest (built ++ [DirectoryEntry name children])
                     end
                 | File => loop rest (built ++ [FileEntry name])
                 end
             end) entries []
      end
  end.

(** The loop of [buildTree] over the entries of [currentPath], on its own. *)
Fixpoint buildEntries (env : Env) (currentPath : jsstring)
  (entries : list (jsstring * Tree)) (built : list TreeEntry)
  {struct entries} : result (list TreeEntry) :=
  match entries with
  | [] => Ok built
  | (name, child) :: rest =>
      match child with
      | Directory _ =>
          let subPath := path.join [currentPath; name] in
          match buildTree env child subPath with
          | Throw e => Throw e
          | Ok children =>
              buildEntries env currentPath rest
                (built ++ [DirectoryEntry name children])
          end
      | File => buildEntries env currentPath rest (built ++ [FileEntry name])
      end
  end.

(** The loop of [writeAudioMetadata] over [Object.entries(tags)]: the
    arguments pushed on [ffmpegArgs] for a file whose lower-cased extension
    is [ext]. *)
Fixpoint pushMetadata (ext : jsstring) (entries : list (jsstring * jsstring))
  (ffmpegArgs : list jsstring) : list jsstring :=
  match entries with
  | [] => ffmpegArgs
  | (key, value) :: rest =>
      if bool_decide (key = js "remix") then
        if bool_decide (ext = js ".mp3") then
          pushMetadata ext rest
            (ffmpegArgs ++ [js "-metadata"; js "TIT3=" ++ value])
        else if bool_decide (ext = js ".flac") then
          pushMetadata ext rest
            (ffmpegArgs ++ [js "-metadata"; js "VERSION=" ++ value])
        else pushMetadata ext rest ffmpegArgs
      else
        pushMetadata ext rest
          (ffmpegArgs ++ [js "-metadata"; key ++ js "=" ++ value])
  end.

(** The arguments [writeAudioMetadata] runs [ffmpeg] with; [ext] and
    [tmpPath] are the values of its variables of these names. *)
Definition ffmpegArguments (validPath ext tmpPath : jsstring)
  (tags : list (jsstring * jsstring)) : list jsstring :=
  pushMetadata ext tags [js "-y"; js "-i"; validPath]
  ++ [js "-codec"; js "copy"; tmpPath].

(** [n.toString(8)] for a natural number [n], with [fuel] bounding the
    number of digits. *)
Fixpoint toOctalFuel (fuel : nat) (n : N) : jsstring :=
  match fuel with
  | 0 => []
  | S fuel' =>
      if (n <? 8)%N then [(48 + n)%N]
      else toOctalFuel fuel' (n / 8)%N ++ [(48 + n mod 8)%N]
  end.

Definition toOctal (n : N) : jsstring := toOctalFuel (S (N.to_nat n)) n.

(** [s.slice(-k)] for a positive [k] *)
Definition sliceLast (k : nat) (s : jsstring) : jsstring :=
  drop (length s - k) s.

(** The field [permissions] of [getFileStats], for the [mode] that
    [fs.stat] reports. *)
Definition permissions (mode : N) : jsstring := sliceLast 3 (toOctal mode).

(** [/allowed/alias] is a symbolic link to [/allowed/sub]. *)
Definition aliasEnv : Env := {|
  homedir := js "/home/user";
  cwd := js "/work";
  realpath := realpathOf
    [ (js "/allowed", js "/allowed");
      (js "/allowed/sub", js "/allowed/sub");
      (js "/allowed/alias", js "/allowed/sub") ];
  allowedDirectories := [js "/allowed"]
|}.

(** A matcher that reads a part [*] as any one segment, for the examples
    with a wild card. *)
Definition starSegments : MinimatchPackage := {|
  minimatch p glob :=
    bool_decide (length (JS.split JS.SLASH p) = length (JS.split JS.SLASH glob))
    && forallb (fun pair => bool_decide (pair.1 = js "*")
                            || bool_decide (pair.1 = pair.2))
         (zip (JS.split JS.SLASH glob) (JS.split JS.SLASH p))
|}.

(** The entries of the directories [/allowed/a/b] and [/allowed/a] of
    [exampleTree]. *)
Definition entriesOfB : list (jsstring * Tree) :=
  [ (js "index.txt", File);
    (js "node_modules", Directory (Some [ (js "x.txt", File) ])) ].

Definition entriesOfA : list (jsstring * Tree) :=
  [ (js "b", Directory (Some entriesOfB)) ].

(** Whether an entry of the returned tree, or a node of the file system,
    is a directory. *)
Definition isDirectoryEntry (entry : TreeEntry) : bool :=
  match entry with
  | FileEntry _ => false
  | DirectoryEntry _ _ => true
  end.

Definition isDirectoryNode (node : Tree) : bool :=
  match node with
  | File => false
  | Directory _ => true
  end.

(** * Theorems *)

(** ** JavaScript strings *)

Lemma startsWith_prefix (s p : jsstring) :
  JS.startsWith s p = true <-> p `prefix_of` s.
Proof.
  revert s. induction p as [|b p IH]; intros s; simpl.
  - split; [intros _; apply prefix_nil | done].
  - destruct s as [|a s].
    + split; [done | intros [k Hk]; discriminate Hk].
    + rewrite andb_true_iff, N.eqb_eq, IH. split.
      * intros [-> Hp]. by apply prefix_cons.
      * intros [k Hk]. injection Hk as -> ->. split; [done | by exists k].
Qed.

Lemma startsWith_nil (s : jsstring) : JS.startsWith s [] = true.
Proof. by destruct s. Qed.

(** ** Substrings *)

Lemma includes_cons (a : N) (s p : jsstring) :
  JS.includes (a :: s) p = JS.startsWith (a :: s) p || JS.includes s p.
Proof.
  unfold JS.includes. cbn [JS.indexOf].
  destruct (JS.startsWith (a :: s) p); [done|].
  by destruct (JS.indexOf s p).
Qed.

Lemma includes_nil_l (p : jsstring) :
  JS.includes [] p = JS.startsWith [] p.
Proof. unfold JS.includes. cbn [JS.indexOf]. by destruct (JS.startsWith [] p). Qed.

Lemma indexOf_nil (s : jsstring) : JS.indexOf s [] = Some 0.
Proof. by destruct s. Qed.

Lemma startsWith_drop (s p : jsstring) :
  JS.startsWith s p = true -> s = p ++ drop (length p) s.
Proof.
  intros [k ->]%startsWith_prefix. by rewrite drop_app_length.
Qed.

Lemma indexOf_Some (s p : jsstring) (i : nat) :
  JS.indexOf s p = Some i ->
  s = take i s ++ p ++ drop (i + length p) s.
Proof.
  revert i. induction s as [|a s IH]; intros i; cbn [JS.indexOf].
  - destruct (JS.startsWith [] p) eqn:Hp; [|done].
    intros [= <-]. by apply startsWith_drop.
  - destruct (JS.startsWith (a :: s) p) eqn:Hp.
    + intros [= <-]. by apply startsWith_drop.
    + destruct (JS.indexOf s p) as [i'|] eqn:Hi; [|done].
      intros [= <-]. simpl. f_equal. by apply IH.
Qed.

Lemma includes_occursIn (s p : jsstring) :
  JS.includes s p = true <-> occursIn p s.
Proof.
  split.
  - unfold JS.includes. destruct (JS.indexOf s p) as [i|] eqn:Hi; [|done].
    intros _. eexists _, _. by apply indexOf_Some.
  - intros (before & after & ->).
    induction before as [|a before IH].
    + cbn [app]. destruct (p ++ after) as [|a s] eqn:Hs.
      * rewrite includes_nil_l. apply startsWith_prefix.
        rewrite <- Hs. by exists after.
      * rewrite includes_cons.
        replace (JS.startsWith (a :: s) p) with true; [done|].
        symmetry. apply startsWith_prefix. rewrite <- Hs. by exists after.
    + cbn [app]. rewrite includes_cons, IH. apply orb_true_r.
Qed.

(** ** Runs of one code unit *)

Lemma startsWith_replicate (c : N) (s : jsstring) (n : nat) :
  JS.startsWith s (replicate n c) = true <-> n <= runAt c s.
Proof.
  revert s. induction n as [|n IH]; intros s; simpl.
  - split; [lia | done].
  - destruct s as [|a s]; simpl.
    + split; [done | lia].
    + destruct (N.eqb a c) eqn:Hac; simpl.
      * rewrite IH. lia.
      * split; [done | lia].
Qed.

Lemma includes_replicate (c : N) (s : jsstring) (n : nat) :
  JS.includes s (replicate n c) = true <-> n <= longestRun c s.
Proof.
  induction s as [|a s IH].
  - rewrite includes_nil_l, startsWith_replicate. done.
  - rewrite includes_cons, orb_true_iff, startsWith_replicate, IH.
    cbn [longestRun]. lia.
Qed.

Lemma runAt_le_length (c : N) (s : jsstring) : runAt c s <= length s.
Proof.
  induction s as [|a s IH]; simpl; [lia|]. destruct (N.eqb a c); lia.
Qed.

Lemma longestRun_le_length (c : N) (s : jsstring) :
  longestRun c s <= length s.
Proof.
  induction s as [|a s IH]; [done|].
  cbn [longestRun]. pose proof (runAt_le_length c (a :: s)). simpl in *. lia.
Qed.

(** The fence loop, given tests enough, stops at the first length from
    [numBackticks] on that exceeds every run of backticks. *)
Lemma fenceLoop_enough_fuel (diff : jsstring) (fuel numBackticks : nat) :
  1 <= fuel ->
  longestRun JS.BACKTICK diff + 2 <= fuel + numBackticks ->
  fenceLoop fuel diff numBackticks
  = Some (Nat.max numBackticks (S (longestRun JS.BACKTICK diff))).
Proof.
  revert numBackticks. induction fuel as [|fuel IH]; intros n Hfuel Hsum; [lia|].
  cbn [fenceLoop]. unfold JS.repeat.
  destruct (JS.includes diff (replicate n JS.BACKTICK)) eqn:Hinc.
  - apply includes_replicate in Hinc.
    rewrite IH by lia. f_equal. lia.
  - f_equal.
    assert (~ n <= longestRun JS.BACKTICK diff) as Hn.
    { intros Hle. apply includes_replicate in Hle. congruence. }
    lia.
Qed.

Lemma fenceLength_total (diff : jsstring) :
  fenceLength diff = Some (Nat.max 3 (S (longestRun JS.BACKTICK diff))).
Proof.
  unfold fenceLength. apply fenceLoop_enough_fuel; [lia|].
  pose proof (longestRun_le_length JS.BACKTICK diff). lia.
Qed.

(** ** Normalized paths *)

Lemma splitAux_app (sep : N) (cur x rest : jsstring) :
  sep ∉ x ->
  JS.splitAux sep cur (x ++ rest) = JS.splitAux sep (reverse x ++ cur) rest.
Proof.
  revert cur. induction x as [|c x IH]; intros cur Hx; [done|].
  apply not_elem_of_cons in Hx as [Hc Hx].
  cbn [app JS.splitAux].
  destruct (N.eqb c sep) eqn:Heq; [apply N.eqb_eq in Heq; congruence|].
  rewrite IH by done. by rewrite reverse_cons, <- app_assoc.
Qed.

Lemma splitAux_join (sep : N) (cur first : jsstring) (rest : list jsstring) :
  Forall (fun seg => sep ∉ seg) (first :: rest) ->
  JS.splitAux sep cur (JS.join [sep] (first :: rest))
  = (reverse cur ++ first) :: rest.
Proof.
  revert cur first. induction rest as [|second rest IH]; intros cur first Hall.
  - apply Forall_cons in Hall as [Hfirst _]. cbn [JS.join].
    rewrite <- (app_nil_r first) at 1. rewrite splitAux_app by done.
    cbn [JS.splitAux]. by rewrite reverse_app, reverse_involutive.
  - apply Forall_cons in Hall as [Hfirst Hrest].
    change (JS.join [sep] (first :: second :: rest))
      with (first ++ [sep] ++ JS.join [sep] (second :: rest)).
    rewrite splitAux_app by done. cbn [app JS.splitAux].
    rewrite N.eqb_refl, (IH [] second Hrest).
    by rewrite reverse_app, reverse_involutive.
Qed.

Lemma split_join (sep : N) (segs : list jsstring) :
  segs <> [] ->
  Forall (fun seg => sep ∉ seg) segs ->
  JS.split sep (JS.join [sep] segs) = segs.
Proof.
  destruct segs as [|first rest]; [done|]. intros _ Hall.
  unfold JS.split. by rewrite splitAux_join.
Qed.

Lemma splitAux_no_sep (sep : N) (cur s : jsstring) :
  sep ∉ cur -> Forall (fun seg => sep ∉ seg) (JS.splitAux sep cur s).
Proof.
  revert cur. induction s as [|c s IH]; intros cur Hcur; cbn [JS.splitAux].
  - constructor; [|done]. by rewrite elem_of_reverse.
  - destruct (N.eqb c sep) eqn:Heq.
    + constructor; [by rewrite elem_of_reverse|].
      apply IH. apply not_elem_of_nil.
    + apply IH. apply not_elem_of_cons. split; [|done].
      intros ->. by rewrite N.eqb_refl in Heq.
Qed.

Lemma split_no_sep (sep : N) (s : jsstring) :
  Forall (fun seg => sep ∉ seg) (JS.split sep s).
Proof. apply splitAux_no_sep, not_elem_of_nil. Qed.

Lemma normalizeSegments_Forall (P : jsstring -> Prop) (allowAboveRoot : bool)
  (stack segs : list jsstring) :
  Forall P stack -> Forall P segs ->
  Forall P (path.normalizeSegments allowAboveRoot stack segs).
Proof.
  revert stack. induction segs as [|seg rest IH]; intros stack Hstack Hsegs;
    cbn [path.normalizeSegments].
  - by apply Forall_reverse.
  - apply Forall_cons in Hsegs as [Hseg Hrest].
    destruct (bool_decide (seg = []) || bool_decide (seg = [JS.DOT]));
      [by apply IH|].
    destruct (path.isDotDot seg).
    + destruct stack as [|top below].
      * apply IH; [|done]. destruct allowAboveRoot; by repeat constructor.
      * apply Forall_cons in Hstack as [Htop Hbelow].
        destruct (path.isDotDot top); [|by apply IH].
        apply IH; [|done].
        destruct allowAboveRoot; by repeat constructor.
    + apply IH; [|done]. by constructor.
Qed.

Lemma plainSegment_tests (seg : jsstring) :
  plainSegment seg ->
  bool_decide (seg = []) || bool_decide (seg = [JS.DOT]) = false
  /\ path.isDotDot seg = false.
Proof.
  intros (Hempty & Hdot & Hdotdot). unfold path.isDotDot.
  by rewrite !bool_decide_eq_false_2.
Qed.

(** What [normalizeSegments] returns is normal, when the stack it starts
    from is. *)
Lemma normalizeSegments_normal (allowAboveRoot : bool)
  (segs plain : list jsstring) (k : nat) :
  Forall plainSegment plain ->
  (allowAboveRoot = false -> k = 0) ->
  normalSegments allowAboveRoot
    (path.normalizeSegments allowAboveRoot
       (plain ++ replicate k [JS.DOT; JS.DOT]) segs).
Proof.
  revert plain k. induction segs as [|seg rest IH]; intros plain k Hplain Hk;
    cbn [path.normalizeSegments].
  - exists k, (reverse plain).
    rewrite reverse_app, reverse_replicate.
    split; [done|]. split; [by apply Forall_reverse | done].
  - destruct (bool_decide (seg = []) || bool_decide (seg = [JS.DOT])) eqn:Hskip;
      [by apply IH|].
    destruct (path.isDotDot seg) eqn:Hdd.
    + apply bool_decide_eq_true in Hdd as ->.
      destruct plain as [|top plain'].
      * cbn [app]. destruct k as [|k]; cbn [replicate].
        -- destruct allowAboveRoot.
           ++ by apply (IH [] 1).
           ++ by apply (IH [] 0).
        -- cbn. destruct allowAboveRoot.
           ++ by apply (IH [] (S (S k))).
           ++ by apply (IH [] (S k)).
      * cbn [app]. apply Forall_cons in Hplain as [Htop Hplain'].
        destruct (plainSegment_tests top Htop) as [_ ->]. by apply IH.
    + apply (IH (seg :: plain) k); [|done].
      constructor; [|done].
      apply orb_false_iff in Hskip as [Hempty Hdot].
      apply bool_decide_eq_false in Hempty, Hdot, Hdd. done.
Qed.

Lemma normalizeSegments_plain (allowAboveRoot : bool)
  (stack plain : list jsstring) :
  Forall plainSegment plain ->
  path.normalizeSegments allowAboveRoot stack plain = reverse stack ++ plain.
Proof.
  revert stack. induction plain as [|seg rest IH]; intros stack Hplain;
    cbn [path.normalizeSegments].
  - by rewrite app_nil_r.
  - apply Forall_cons in Hplain as [Hseg Hrest].
    destruct (plainSegment_tests seg Hseg) as [-> ->].
    rewrite IH by done. by rewrite reverse_cons, <- app_assoc.
Qed.

Lemma normalizeSegments_dotdots (k j : nat) (plain : list jsstring) :
  Forall plainSegment plain ->
  path.normalizeSegments true (replicate k [JS.DOT; JS.DOT])
    (replicate j [JS.DOT; JS.DOT] ++ plain)
  = replicate (k + j) [JS.DOT; JS.DOT] ++ plain.
Proof.
  intros Hplain. revert k. induction j as [|j IH]; intros k.
  - cbn [replicate app]. rewrite normalizeSegments_plain by done.
    by rewrite reverse_replicate, Nat.add_0_r.
  - cbn [replicate app path.normalizeSegments].
    replace (bool_decide ([JS.DOT; JS.DOT] = []) ||
             bool_decide ([JS.DOT; JS.DOT] = [JS.DOT])) with false by done.
    replace (path.isDotDot [JS.DOT; JS.DOT]) with true by done.
    destruct k as [|k]; cbn [replicate].
    + exact (IH 1).
    + replace (path.isDotDot [JS.DOT; JS.DOT]) with true by done.
      rewrite Nat.add_succ_r. exact (IH (S (S k))).
Qed.

(** Normal segments are left as they are. *)
Lemma normalizeSegments_fixed (allowAboveRoot : bool) (segs : list jsstring) :
  normalSegments allowAboveRoot segs ->
  path.normalizeSegments allowAboveRoot [] segs = segs.
Proof.
  intros (k & plain & -> & Hplain & Hk). destruct allowAboveRoot.
  - exact (normalizeSegments_dotdots 0 k plain Hplain).
  - rewrite (Hk eq_refl). cbn [replicate app].
    by rewrite normalizeSegments_plain.
Qed.


Lemma join_head (sep first : jsstring) (rest : list jsstring) :
  exists post, JS.join sep (first :: rest) = first ++ post.
Proof.
  destruct rest as [|second rest].
  - exists []. cbn [JS.join]. by rewrite app_nil_r.
  - by eexists.
Qed.

Lemma join_last (sep last : jsstring) (init : list jsstring) :
  exists pre, JS.join sep (init ++ [last]) = pre ++ last.
Proof.
  induction init as [|first init [pre IH]].
  - by exists [].
  - destruct init as [|second init].
    + exists (first ++ sep). cbn [app JS.join]. by rewrite <- app_assoc.
    + exists (first ++ sep ++ pre).
      change (JS.join sep ((first :: second :: init) ++ [last]))
        with (first ++ sep ++ JS.join sep ((second :: init) ++ [last])).
      rewrite IH. by rewrite <- !app_assoc.
Qed.

Lemma endsWith_slash_false (pre x : jsstring) :
  x <> [] -> JS.SLASH ∉ x -> JS.endsWith (pre ++ x) [JS.SLASH] = false.
Proof.
  intros Hne Hslash. destruct x as [|c x] using rev_ind; [done|].
  unfold JS.endsWith. rewrite app_assoc, reverse_snoc.
  cbn. apply andb_false_iff. left. apply N.eqb_neq.
  intros ->. apply Hslash. apply elem_of_app. right. apply list_elem_of_here.
Qed.

Lemma isAbsolute_no_slash (x post : jsstring) :
  x <> [] -> JS.SLASH ∉ x -> path.isAbsolute (x ++ post) = false.
Proof.
  destruct x as [|c x]; [done|]. intros _ Hslash. cbn.
  apply N.eqb_neq. intros ->. apply Hslash, list_elem_of_here.
Qed.

Lemma normalSegments_nonempty (allowAboveRoot : bool)
  (segs : list jsstring) :
  normalSegments allowAboveRoot segs -> Forall (fun seg => seg <> []) segs.
Proof.
  intros (k & plain & -> & Hplain & _). apply Forall_app. split.
  - apply Forall_replicate. done.
  - eapply Forall_impl; [exact Hplain|]. by intros seg [Hne _].
Qed.

(** A path built from normal segments ends in no slash. *)
Lemma join_no_trailing_slash (allowAboveRoot : bool) (pre : jsstring)
  (segs : list jsstring) :
  segs <> [] ->
  normalSegments allowAboveRoot segs ->
  Forall (fun seg => JS.SLASH ∉ seg) segs ->
  JS.endsWith (pre ++ JS.join [JS.SLASH] segs) [JS.SLASH] = false.
Proof.
  intros Hne Hnormal%normalSegments_nonempty Hslash.
  destruct segs as [|last init _] using rev_ind; [done|].
  rewrite Forall_app, Forall_singleton in Hnormal, Hslash.
  destruct Hnormal as [_ Hlast]. destruct Hslash as [_ Hlast'].
  destruct (join_last [JS.SLASH] last init) as [pre' ->].
  rewrite app_assoc. by apply endsWith_slash_false.
Qed.

Lemma normalize_nonempty (p : jsstring) :
  p <> [] ->
  path.normalize p =
    match path.normalizeString p (negb (path.isAbsolute p)) with
    | [] =>
        if path.isAbsolute p then [JS.SLASH]
        else if JS.endsWith p [JS.SLASH] then [JS.DOT; JS.SLASH] else [JS.DOT]
    | c :: body =>
        if path.isAbsolute p then
          JS.SLASH :: (if JS.endsWith p [JS.SLASH]
                       then (c :: body) ++ [JS.SLASH] else c :: body)
        else if JS.endsWith p [JS.SLASH]
             then (c :: body) ++ [JS.SLASH] else c :: body
    end.
Proof.
  destruct p as [|a p]; [done|]. intros _. unfold path.normalize.
  destruct (path.normalizeString (a :: p) (negb (path.isAbsolute (a :: p))));
    [done|].
  by destruct (path.isAbsolute (a :: p)), (JS.endsWith (a :: p) [JS.SLASH]).
Qed.

Lemma join_nonempty (first : jsstring) (rest : list jsstring) :
  first <> [] -> JS.join [JS.SLASH] (first :: rest) <> [].
Proof.
  intros Hfirst Hjoin. destruct (join_head [JS.SLASH] first rest) as [post Hpost].
  rewrite Hjoin in Hpost. symmetry in Hpost.
  by apply app_eq_nil in Hpost as [-> _].
Qed.

Lemma split_absolute (first : jsstring) (rest : list jsstring) :
  Forall (fun seg => JS.SLASH ∉ seg) (first :: rest) ->
  JS.split JS.SLASH (JS.SLASH :: JS.join [JS.SLASH] (first :: rest))
  = [] :: first :: rest.
Proof.
  intros Hslash. unfold JS.split. cbn [JS.splitAux].
  rewrite N.eqb_refl, splitAux_join by done. reflexivity.
Qed.

Lemma normalize_absolute_fixed (segs : list jsstring) :
  normalSegments false segs ->
  Forall (fun seg => JS.SLASH ∉ seg) segs ->
  path.normalize (JS.SLASH :: JS.join [JS.SLASH] segs)
  = JS.SLASH :: JS.join [JS.SLASH] segs.
Proof.
  intros Hnormal Hslash. destruct segs as [|first rest]; [done|].
  pose proof (normalSegments_nonempty _ _ Hnormal) as Hne.
  apply Forall_cons in Hne as [Hfirst _].
  rewrite normalize_nonempty by done.
  replace (JS.endsWith (JS.SLASH :: JS.join [JS.SLASH] (first :: rest))
             [JS.SLASH]) with false
    by (symmetry; by apply (join_no_trailing_slash false [JS.SLASH])).
  replace (path.normalizeString
             (JS.SLASH :: JS.join [JS.SLASH] (first :: rest))
             (negb (path.isAbsolute
                      (JS.SLASH :: JS.join [JS.SLASH] (first :: rest)))))
    with (JS.join [JS.SLASH] (first :: rest)).
  - destruct (JS.join [JS.SLASH] (first :: rest)) as [|c body] eqn:Hjoin;
      [|done].
    by apply join_nonempty in Hjoin.
  - unfold path.normalizeString. rewrite split_absolute by done.
    change (path.normalizeSegments
              (negb (path.isAbsolute
                       (JS.SLASH :: JS.join [JS.SLASH] (first :: rest))))
              [] ([] :: first :: rest))
      with (path.normalizeSegments false [] (first :: rest)).
    by rewrite normalizeSegments_fixed.
Qed.

Lemma normalize_relative_fixed (segs : list jsstring) :
  segs <> [] ->
  normalSegments true segs ->
  Forall (fun seg => JS.SLASH ∉ seg) segs ->
  path.normalize (JS.join [JS.SLASH] segs) = JS.join [JS.SLASH] segs.
Proof.
  intros Hne Hnormal Hslash. destruct segs as [|first rest]; [done|].
  pose proof (normalSegments_nonempty _ _ Hnormal) as Hnonempty.
  apply Forall_cons in Hnonempty as [Hfirst _].
  pose proof Hslash as Hslash'. apply Forall_cons in Hslash' as [Hfirst' _].
  destruct (join_head [JS.SLASH] first rest) as [post Hpost].
  rewrite normalize_nonempty by (by apply join_nonempty).
  replace (path.isAbsolute (JS.join [JS.SLASH] (first :: rest))) with false
    by (rewrite Hpost; symmetry; by apply isAbsolute_no_slash).
  replace (JS.endsWith (JS.join [JS.SLASH] (first :: rest)) [JS.SLASH])
    with false
    by (symmetry;
        by apply (join_no_trailing_slash true [] (first :: rest))).
  unfold path.normalizeString. cbn [negb].
  rewrite split_join, normalizeSegments_fixed by done.
  destruct (JS.join [JS.SLASH] (first :: rest)) as [|c body] eqn:Hjoin; [|done].
  by apply join_nonempty in Hjoin.
Qed.

(** [path.resolve] returns a normalized path. *)
Lemma resolve_normalized (cwd : jsstring) (args : list jsstring) :
  path.normalize (path.resolve cwd args) = path.resolve cwd args.
Proof.
  unfold path.resolve.
  destruct (path.resolveLoop (reverse args ++ [cwd]) [])
    as [resolvedPath resolvedAbsolute].
  unfold path.normalizeString.
  set (segs := path.normalizeSegments (negb resolvedAbsolute) []
                 (JS.split JS.SLASH resolvedPath)).
  assert (normalSegments (negb resolvedAbsolute) segs) as Hnormal.
  { apply (normalizeSegments_normal _ _ [] 0); [done | done]. }
  assert (Forall (fun seg => JS.SLASH ∉ seg) segs) as Hslash.
  { apply normalizeSegments_Forall; [done | apply split_no_sep]. }
  destruct resolvedAbsolute.
  - by apply normalize_absolute_fixed.
  - destruct (JS.join [JS.SLASH] segs) as [|c body] eqn:Hjoin; [done|].
    rewrite <- Hjoin. apply normalize_relative_fixed; [|done|done].
    intros ->. done.
Qed.

Lemma absolutePath_normalized (env : Env) (requestedPath : jsstring) :
  normalizePath (absolutePath env requestedPath)
  = absolutePath env requestedPath.
Proof.
  unfold normalizePath, absolutePath.
  destruct (path.isAbsolute (expandHome env requestedPath));
    apply resolve_normalized.
Qed.

(** ** The path sandbox *)

Section Sandbox.
Variable env : Env.

(** What [validatePath] does once the requested path has passed the first
    check: the canonical path when it lies in the allow-list, else the
    requested path when its parent's canonical path does, else the
    parent-missing error. *)
Lemma validatePath_after_first_check (p : jsstring) :
  isAllowed env (normalizePath (absolutePath env p)) = true ->
  validatePath env p =
    match realpath env (absolutePath env p) with
    | Some realPath =>
        if isAllowed env (normalizePath realPath) then Ok realPath
        else
          match realpath env (path.dirname (absolutePath env p)) with
          | Some parent =>
              if isAllowed env (normalizePath parent)
              then Ok (absolutePath env p)
              else Throw (Error (js "Parent directory does not exist: "
                                 ++ path.dirname (absolutePath env p)))
          | None => Throw (Error (js "Parent directory does not exist: "
                                  ++ path.dirname (absolutePath env p)))
          end
    | None =>
        match realpath env (path.dirname (absolutePath env p)) with
        | Some parent =>
            if isAllowed env (normalizePath parent)
            then Ok (absolutePath env p)
            else Throw (Error (js "Parent directory does not exist: "
                               ++ path.dirname (absolutePath env p)))
        | None => Throw (Error (js "Parent directory does not exist: "
                                ++ path.dirname (absolutePath env p)))
        end
    end.
Proof.
  intros Hfirst. unfold validatePath, fsRealpath. rewrite Hfirst. simpl.
  destruct (realpath env (absolutePath env p)) as [realPath|]; simpl.
  - destruct (isAllowed env (normalizePath realPath)); simpl; [done|].
    destruct (realpath env (path.dirname (absolutePath env p))) as [parent|];
      simpl; [|done].
    by destruct (isAllowed env (normalizePath parent)).
  - destruct (realpath env (path.dirname (absolutePath env p))) as [parent|];
      simpl; [|done].
    by destruct (isAllowed env (normalizePath parent)).
Qed.

(** Past the first check, [validatePath] never fails with an access-denied
    error: both of its later [throw]s are caught by the [catch] around them. *)
Lemma validatePath_denies_only_at_first_check (p : jsstring) :
  isAllowed env (normalizePath (absolutePath env p)) = true ->
  isAccessDenied (validatePath env p) = false.
Proof.
  intros Hfirst. rewrite validatePath_after_first_check by done.
  repeat case_match; done.
Qed.

(** A path whose parent directory cannot be resolved fails with the
    parent-missing error. *)
Lemma validatePath_parent_missing (p : jsstring) :
  isAllowed env (normalizePath (absolutePath env p)) = true ->
  realpath env (absolutePath env p) = None ->
  realpath env (path.dirname (absolutePath env p)) = None ->
  isParentMissing (validatePath env p) = true.
Proof.
  intros Hfirst Hleaf Hparent.
  rewrite validatePath_after_first_check, Hleaf, Hparent by done. done.
Qed.

End Sandbox.

(** C1. [/allowed/link] lies under the allowed root and resolves to [/etc],
    outside of it; [validatePath] returns the link itself: the access-denied
    error it throws for the target is caught by its own [catch], which then
    accepts the path because its parent resolves inside the root. *)
Theorem validatePath_returns_escaping_symlink :
  isAllowed exampleEnv (normalizePath (absolutePath exampleEnv (js "/allowed/link")))
  = true
  /\ realpath exampleEnv (js "/allowed/link") = Some (js "/etc")
  /\ isAllowed exampleEnv (normalizePath (js "/etc")) = false
  /\ validatePath exampleEnv (js "/allowed/link") = Ok (js "/allowed/link")
  /\ isAccessDenied (validatePath exampleEnv (js "/allowed/link")) = false.
Proof. vm_compute. done. Qed.

(** The same in general: a link that resolves outside the allow-list is
    returned as it was requested whenever its parent resolves inside. *)
Lemma validatePath_escaping_symlink (env : Env) (s target parent : jsstring) :
  isAllowed env (normalizePath (absolutePath env s)) = true ->
  realpath env (absolutePath env s) = Some target ->
  isAllowed env (normalizePath target) = false ->
  realpath env (path.dirname (absolutePath env s)) = Some parent ->
  isAllowed env (normalizePath parent) = true ->
  validatePath env s = Ok (absolutePath env s).
Proof.
  intros Hfirst Hreal Houtside Hparent Hinside.
  by rewrite validatePath_after_first_check, Hreal, Houtside, Hparent, Hinside.
Qed.

(** C2. [/allowed2/secret.txt] is not below [/allowed] by components, yet
    its text starts with [/allowed]: [validatePath] accepts it. *)
Theorem validatePath_accepts_sibling_directory :
  allowedDirectories exampleEnv = [js "/allowed"]
  /\ isWithinSome (allowedDirectories exampleEnv)
       (normalizePath (absolutePath exampleEnv (js "/allowed2/secret.txt")))
     = false
  /\ validatePath exampleEnv (js "/allowed2/secret.txt")
     = Ok (js "/allowed2/secret.txt").
Proof. vm_compute. done. Qed.

(** C3. [/allowed/link/new.txt] does not exist, its parent [/allowed/link]
    does and resolves to [/etc], outside the root; [validatePath] reports
    the parent as missing: the access-denied error thrown for the parent is
    caught and replaced. *)
Theorem validatePath_parent_outside_reported_missing :
  realpath exampleEnv (js "/allowed/link/new.txt") = None
  /\ realpath exampleEnv (path.dirname (js "/allowed/link/new.txt"))
     = Some (js "/etc")
  /\ isAllowed exampleEnv (normalizePath (js "/etc")) = false
  /\ validatePath exampleEnv (js "/allowed/link/new.txt")
     = Throw (Error (js "Parent directory does not exist: /allowed/link"))
  /\ isAccessDenied (validatePath exampleEnv (js "/allowed/link/new.txt"))
     = false.
Proof. vm_compute. done. Qed.

(** The same in general: past the first check, a parent that resolves
    outside the allow-list gives the parent-missing error. *)
Lemma validatePath_parent_outside (env : Env) (p parent : jsstring) :
  isAllowed env (normalizePath (absolutePath env p)) = true ->
  realpath env (absolutePath env p) = None ->
  realpath env (path.dirname (absolutePath env p)) = Some parent ->
  isAllowed env (normalizePath parent) = false ->
  validatePath env p
  = Throw (Error (js "Parent directory does not exist: "
                  ++ path.dirname (absolutePath env p))).
Proof.
  intros Hfirst Hleaf Hparent Houtside.
  by rewrite validatePath_after_first_check, Hleaf, Hparent, Houtside.
Qed.

(** C7. A requested path that passes the first check, that [fs.realpath]
    does not resolve, and whose parent directory resolves to a path in the
    allow-list is returned in its normalized absolute form, the last
    component as it was given. *)
Theorem validatePath_new_path (env : Env) (p parent : jsstring) :
  isAllowed env (normalizePath (absolutePath env p)) = true ->
  realpath env (absolutePath env p) = None ->
  realpath env (path.dirname (absolutePath env p)) = Some parent ->
  isAllowed env (normalizePath parent) = true ->
  validatePath env p = Ok (absolutePath env p)
  /\ normalizePath (absolutePath env p) = absolutePath env p.
Proof.
  intros Hfirst Hleaf Hparent Hinside. split.
  - by rewrite validatePath_after_first_check, Hleaf, Hparent, Hinside.
  - apply absolutePath_normalized.
Qed.

Lemma validatePath_new_path_witness :
  validatePath exampleEnv (js "/allowed/sub/../sub/new.txt")
  = Ok (absolutePath exampleEnv (js "/allowed/sub/../sub/new.txt"))
  /\ normalizePath (absolutePath exampleEnv (js "/allowed/sub/../sub/new.txt"))
     = absolutePath exampleEnv (js "/allowed/sub/../sub/new.txt").
Proof.
  apply (validatePath_new_path exampleEnv (js "/allowed/sub/../sub/new.txt")
           (js "/allowed/sub")).
  - vm_compute. reflexivity.
  - vm_compute. reflexivity.
  - vm_compute. reflexivity.
  - vm_compute. reflexivity.
Defined.

(** The absolute form in that example. *)
Example absolute_form_of_new_path :
  absolutePath exampleEnv (js "/allowed/sub/../sub/new.txt")
  = js "/allowed/sub/new.txt".
Proof. vm_compute. reflexivity. Qed.

(** [/tmp/inside/new.txt] does not exist and its parent [/tmp/inside]
    resolves to [/allowed/sub], inside the root; the path itself is outside
    the allow-list as requested, and [validatePath] denies it. *)
Lemma new_path_outside_first_check :
  realpath exampleEnv (js "/tmp/inside/new.txt") = None
  /\ realpath exampleEnv (path.dirname (js "/tmp/inside/new.txt"))
     = Some (js "/allowed/sub")
  /\ isAllowed exampleEnv (normalizePath (js "/allowed/sub")) = true
  /\ isAccessDenied (validatePath exampleEnv (js "/tmp/inside/new.txt")) = true
  /\ validatePath exampleEnv (js "/tmp/inside/new.txt")
     <> Ok (js "/tmp/inside/new.txt").
Proof. vm_compute. repeat split; discriminate. Qed.

(** ** The bounded recursive search *)

Lemma Tree_ind (P : Tree -> Prop) :
  P File ->
  P (Directory None) ->
  (forall entries,
     Forall (fun entry => P entry.2) entries -> P (Directory (Some entries))) ->
  forall node, P node.
Proof.
  intros HFile HNone HSome. fix IH 1. intros [|[entries|]]; [done| |done].
  apply HSome. induction entries as [|[name child] entries IHentries].
  - constructor.
  - constructor; [apply IH | apply IHentries].
Qed.

Section SearchFacts.
Context `{MinimatchPackage} `{CaseMapping}.
Variable env : Env.
Variables (rootPath pattern : jsstring) (excludePatterns : list jsstring).

(** Every path [search] pushes has passed the exclusion test. *)
Lemma search_pushes_unexcluded (node : Tree) (currentPath : jsstring)
  (results : list jsstring) :
  Forall (fun p => shouldExclude env rootPath excludePatterns p = false) results ->
  Forall (fun p => shouldExclude env rootPath excludePatterns p = false)
    (search env rootPath pattern excludePatterns node currentPath results).1.
Proof.
  revert currentPath results.
  induction node as [| |entries IH] using Tree_ind;
    intros currentPath results Hresults; [done | done |].
  cbn [search]. revert results Hresults.
  induction IH as [|[name child] rest Hchild _ IHrest];
    intros results Hresults; [done|].
  destruct (validatePath env (path.join [currentPath; name])) eqn:Hvalid;
    [|by apply IHrest].
  destruct (shouldExclude env rootPath excludePatterns
              (path.join [currentPath; name])) eqn:Hexcl; [by apply IHrest|].
  set (results1 :=
         if JS.includes (toLowerCase name) (toLowerCase pattern)
         then results ++ [path.join [currentPath; name]] else results).
  assert (Forall (fun p => shouldExclude env rootPath excludePatterns p = false)
            results1) as Hresults1.
  { unfold results1. case_match; [|done].
    apply Forall_app. split; [done|]. by constructor. }
  destruct child as [|listing].
  - by apply IHrest.
  - specialize (Hchild (path.join [currentPath; name]) results1 Hresults1).
    cbn [snd] in Hchild.
    destruct (search env rootPath pattern excludePatterns (Directory listing)
                (path.join [currentPath; name]) results1) as [results2 outcome].
    by apply IHrest.
Qed.


End SearchFacts.


(** The search of the example tree for every name, [node_modules] excluded:
    the file below [node_modules] is not returned. *)
Example searchFiles_exampleTree :
  searchFiles plainEnv (js "/allowed") (js "") [js "node_modules"] exampleTree
  = Ok [js "/allowed/a"; js "/allowed/a/b"; js "/allowed/a/b/index.txt";
        js "/allowed/a/b/node_modules"].
Proof. vm_compute. reflexivity. Qed.


(** The stand-in matcher on the glob of a bare pattern: a path is matched
    when the pattern is one of its segments and another segment follows. *)
Lemma matchSegments_globstar (part : jsstring) (glob file : list jsstring)
  (seg : jsstring) :
  matchSegments (js "**" :: part :: glob) (seg :: file)
  = matchSegments (part :: glob) (seg :: file)
    || (negb (isDots seg) && matchSegments (js "**" :: part :: glob) file).
Proof. by destruct file. Qed.

Lemma matchSegments_below (exclude : jsstring) (above below : list jsstring) :
  exclude <> js "**" ->
  Forall (fun seg => isDots seg = false) (above ++ below) ->
  below <> [] ->
  matchSegments [js "**"; exclude; js "**"] (above ++ exclude :: below) = true.
Proof.
  intros Hstar Hdots Hbelow. induction above as [|seg above IH].
  - cbn [app]. rewrite matchSegments_globstar. apply orb_true_iff. left.
    destruct below as [|next below]; [done|].
    cbn [matchSegments].
    rewrite (bool_decide_eq_false_2 (exclude = js "**")) by done.
    rewrite bool_decide_eq_true_2 by done.
    replace (bool_decide (js "**" = js "**")) with true by done.
    cbn [andb]. apply forallb_forall. intros seg Hseg.
    rewrite Forall_forall in Hdots.
    rewrite (Hdots seg); [done|]. by apply list_elem_of_In.
  - cbn [app] in *. apply Forall_cons in Hdots as [Hseg Hdots].
    rewrite matchSegments_globstar, Hseg, IH by done.
    apply orb_true_r.
Qed.

Lemma segmentGlob_below (exclude : jsstring) (above below : list jsstring) :
  exclude <> js "**" ->
  Forall (fun seg => JS.SLASH ∉ seg) (above ++ exclude :: below) ->
  Forall (fun seg => isDots seg = false) (above ++ below) ->
  below <> [] ->
  minimatch (JS.join [JS.SLASH] (above ++ exclude :: below))
    (js "**/" ++ exclude ++ js "/**") = true.
Proof.
  intros Hstar Hslash Hdots Hbelow. cbn [minimatch segmentGlob].
  rewrite split_join; [|by destruct above|done].
  replace (js "**/" ++ exclude ++ js "/**")
    with (JS.join [JS.SLASH] [js "**"; exclude; js "**"]).
  - rewrite split_join; [by apply matchSegments_below | done |].
    apply Forall_app in Hslash as [_ Hslash].
    apply Forall_cons in Hslash as [Hexclude _].
    assert (JS.SLASH ∉ js "**") as Hstars
      by (apply (bool_decide_unpack _); vm_compute; exact I).
    by repeat constructor.
  - reflexivity.
Qed.

(** ** The window test of the fuzzy match *)

Lemma everyLineMatches_spec (oldLines potentialMatch : list jsstring) (j : nat) :
  everyLineMatches oldLines potentialMatch j = true <->
  forall k oldLine,
    oldLines !! k = Some oldLine ->
    exists contentLine,
      potentialMatch !! (j + k) = Some contentLine /\
      JS.trim oldLine = JS.trim contentLine.
Proof.
  revert j. induction oldLines as [|o rest IH]; intros j; cbn [everyLineMatches].
  - split; [intros _ k oldLine Hk; by rewrite lookup_nil in Hk | done].
  - split.
    + destruct (potentialMatch !! j) as [c|] eqn:Hj; [|done].
      intros [Heq Hrest]%andb_true_iff.
      apply bool_decide_eq_true in Heq.
      intros [|k] oldLine Hk; simpl in Hk.
      * injection Hk as <-. exists c. by rewrite Nat.add_0_r.
      * destruct (proj1 (IH (S j)) Hrest k oldLine Hk) as (c' & Hc' & Htrim).
        exists c'. by rewrite Nat.add_succ_r.
    + intros Hall.
      destruct (Hall 0 o eq_refl) as (c & Hc & Htrim).
      rewrite Nat.add_0_r in Hc. rewrite Hc.
      apply andb_true_iff. split; [by apply bool_decide_eq_true|].
      apply IH. intros k oldLine Hk.
      destruct (Hall (S k) oldLine Hk) as (c' & Hc' & Htrim').
      exists c'. by rewrite Nat.add_succ_r in Hc'.
Qed.

(** The test the loop makes at index [i]. *)
Lemma window_test_spec (oldLines contentLines : list jsstring) (i : nat) :
  everyLineMatches oldLines
    (take (length oldLines) (drop i contentLines)) 0 = true <->
  forall j oldLine,
    oldLines !! j = Some oldLine ->
    exists contentLine,
      contentLines !! (i + j) = Some contentLine /\
      JS.trim oldLine = JS.trim contentLine.
Proof.
  rewrite everyLineMatches_spec. split; intros Hall j oldLine Hj.
  - destruct (Hall j oldLine Hj) as (c & Hc & Htrim). exists c. split; [|done].
    simpl in Hc. apply lookup_lt_Some in Hj.
    by rewrite lookup_take_lt, lookup_drop in Hc.
  - destruct (Hall j oldLine Hj) as (c & Hc & Htrim). exists c. split; [|done].
    simpl. apply lookup_lt_Some in Hj.
    by rewrite lookup_take_lt, lookup_drop.
Qed.

Lemma windowMatchesAt_test (oldLines contentLines : list jsstring) (i : nat) :
  windowMatchesAt oldLines contentLines i <->
  i < windowCount oldLines contentLines /\
  everyLineMatches oldLines
    (take (length oldLines) (drop i contentLines)) 0 = true.
Proof.
  unfold windowMatchesAt, windowCount. rewrite window_test_spec.
  split; intros [Hrange Hall]; (split; [lia | done]).
Qed.

Lemma windowLoop_Some (oldLines contentLines : list jsstring)
  (i remaining found : nat) :
  windowLoop oldLines contentLines i remaining = Some found ->
  i <= found < i + remaining /\
  everyLineMatches oldLines
    (take (length oldLines) (drop found contentLines)) 0 = true /\
  forall k, i <= k < found ->
    everyLineMatches oldLines
      (take (length oldLines) (drop k contentLines)) 0 = false.
Proof.
  revert i. induction remaining as [|remaining IH]; intros i; [done|].
  cbn [windowLoop].
  destruct (everyLineMatches oldLines
              (take (length oldLines) (drop i contentLines)) 0) eqn:Htest.
  - intros [= <-]. repeat split; [lia | lia | done | intros k ?; lia].
  - intros (Hrange & Hfound & Hbelow)%IH. repeat split; [lia | lia | done |].
    intros k Hk. destruct (decide (k = i)) as [->|]; [done|].
    apply Hbelow. lia.
Qed.

Lemma windowLoop_None (oldLines contentLines : list jsstring)
  (i remaining : nat) :
  windowLoop oldLines contentLines i remaining = None ->
  forall k, i <= k < i + remaining ->
    everyLineMatches oldLines
      (take (length oldLines) (drop k contentLines)) 0 = false.
Proof.
  revert i. induction remaining as [|remaining IH]; intros i; [intros _ k; lia|].
  cbn [windowLoop].
  destruct (everyLineMatches oldLines
              (take (length oldLines) (drop i contentLines)) 0) eqn:Htest;
    [done|].
  intros Hnone k Hk. destruct (decide (k = i)) as [->|]; [done|].
  apply (IH (S i) Hnone). lia.
Qed.

(** The loop finds the first window that matches. *)
Lemma windowLoop_first (oldLines contentLines : list jsstring) (i : nat) :
  windowMatchesAt oldLines contentLines i ->
  (forall k, k < i -> ~ windowMatchesAt oldLines contentLines k) ->
  windowLoop oldLines contentLines 0 (windowCount oldLines contentLines)
  = Some i.
Proof.
  intros [Hi Htest]%windowMatchesAt_test Hfirst.
  destruct (windowLoop oldLines contentLines 0
              (windowCount oldLines contentLines)) as [found|] eqn:Hloop.
  - apply windowLoop_Some in Hloop as (Hrange & Hfound & Hbelow).
    f_equal. destruct (Nat.lt_trichotomy found i) as [Hlt|[->|Hgt]]; [|done|].
    + exfalso. apply (Hfirst found Hlt). apply windowMatchesAt_test.
      split; [lia | done].
    + rewrite Hbelow in Htest by lia. done.
  - rewrite (windowLoop_None _ _ _ _ Hloop i) in Htest by lia. done.
Qed.

(** The loop finds nothing when no window matches. *)
Lemma windowLoop_no_match (oldLines contentLines : list jsstring) :
  (forall i, ~ windowMatchesAt oldLines contentLines i) ->
  windowLoop oldLines contentLines 0 (windowCount oldLines contentLines)
  = None.
Proof.
  intros Hnone.
  destruct (windowLoop oldLines contentLines 0
              (windowCount oldLines contentLines)) as [found|] eqn:Hloop;
    [|done].
  apply windowLoop_Some in Hloop as (Hrange & Hfound & _).
  exfalso. apply (Hnone found). apply windowMatchesAt_test. split; [lia | done].
Qed.

Lemma split_cons (sep : N) (s : jsstring) :
  exists first rest, JS.split sep s = first :: rest.
Proof.
  unfold JS.split. generalize (@nil N) as cur.
  induction s as [|c s IH]; intros cur; cbn [JS.splitAux]; [by eauto|].
  destruct (N.eqb c sep); [by eauto | apply IH].
Qed.

(** ** The patch engine *)

Lemma applyEdits_app (content : jsstring) (before after : list Edit) :
  applyEdits content (before ++ after) =
    match applyEdits content before with
    | Ok current => applyEdits current after
    | Throw e => Throw e
    end.
Proof.
  revert content. induction before as [|edit before IH]; intros content; [done|].
  cbn [app applyEdits]. by destruct (applyEdit content edit).
Qed.

(** An edit that matches neither verbatim nor by a window throws. *)
Lemma applyEdit_unmatched (content : jsstring) (edit : Edit) :
  ~ occursIn (normalizeLineEndings (oldText edit)) content ->
  (forall i, ~ windowMatchesAt (lines (normalizeLineEndings (oldText edit)))
                               (lines content) i) ->
  applyEdit content edit
  = Throw (Error (js "Could not find exact match for edit:" ++ [JS.LF]
                  ++ oldText edit)).
Proof.
  intros Hexact Hfuzzy. unfold applyEdit, lines in *.
  destruct (JS.includes content (normalizeLineEndings (oldText edit))) eqn:Hinc.
  - by apply includes_occursIn in Hinc.
  - by rewrite (windowLoop_no_match _ _ Hfuzzy).
Qed.

(** The two computable tests that discharge the premises above. *)
Lemma includes_false_not_occursIn (pattern text : jsstring) :
  JS.includes text pattern = false -> ~ occursIn pattern text.
Proof. intros Hinc Hocc%includes_occursIn. congruence. Qed.

Lemma windowLoop_None_no_match (oldLines contentLines : list jsstring) :
  windowLoop oldLines contentLines 0 (windowCount oldLines contentLines) = None ->
  forall i, ~ windowMatchesAt oldLines contentLines i.
Proof.
  intros Hloop i [Hi Htest]%windowMatchesAt_test.
  rewrite (windowLoop_None _ _ _ _ Hloop i) in Htest by lia. done.
Qed.

Lemma getSubstitution_no_dollar (matched before after template : jsstring) :
  JS.DOLLAR ∉ template ->
  JS.getSubstitution matched before after template = template.
Proof.
  induction template as [|c rest IH]; [done|].
  intros Hnot. apply not_elem_of_cons in Hnot as [Hc Hrest].
  cbn [JS.getSubstitution].
  destruct (N.eqb c JS.DOLLAR) eqn:Heq.
  - apply N.eqb_eq in Heq. congruence.
  - by rewrite IH.
Qed.

(** A replacement without any of the four patterns is put as it is. *)
Lemma getSubstitution_no_pattern (matched before after template : jsstring) :
  hasReplacementPattern template = false ->
  JS.getSubstitution matched before after template = template.
Proof.
  induction template as [|c rest IH]; [done|].
  cbn [hasReplacementPattern]. intros [Hhere Hrest]%orb_false_iff.
  specialize (IH Hrest). destruct rest as [|d rest'].
  - cbn [JS.getSubstitution]. by destruct (N.eqb c JS.DOLLAR).
  - change (JS.getSubstitution matched before after (c :: d :: rest'))
      with (if N.eqb c JS.DOLLAR
            then if N.eqb d JS.DOLLAR
                 then JS.DOLLAR
                        :: JS.getSubstitution matched before after rest'
                 else if N.eqb d JS.AMPERSAND
                 then matched ++ JS.getSubstitution matched before after rest'
                 else if N.eqb d JS.BACKTICK
                 then before ++ JS.getSubstitution matched before after rest'
                 else if N.eqb d JS.APOSTROPHE
                 then after ++ JS.getSubstitution matched before after rest'
                 else c :: JS.getSubstitution matched before after (d :: rest')
            else c :: JS.getSubstitution matched before after (d :: rest')).
    rewrite IH. destruct (N.eqb c JS.DOLLAR); [|done].
    cbn [andb] in Hhere. unfold isPatternUnit in Hhere.
    apply orb_false_iff in Hhere as [Hhere Hapostrophe].
    apply orb_false_iff in Hhere as [Hhere Hbacktick].
    apply orb_false_iff in Hhere as [Hdollar Hampersand].
    by rewrite Hdollar, Hampersand, Hbacktick, Hapostrophe.
Qed.

(** [utf8Encode] on ASCII text: each code unit is its own byte. *)
Lemma utf8Encode_ascii (text : jsstring) :
  Forall (fun c => (c < 128)%N) text -> utf8Encode text = text.
Proof.
  induction 1 as [|c rest Hc _ IH]; [done|].
  cbn [utf8Encode]. rewrite (proj2 (N.ltb_lt c 128) Hc). by rewrite IH.
Qed.

(** A surrogate that stands alone is written as U+FFFD; a pair is written
    as the four bytes of its code point. *)
Example utf8Encode_surrogates :
  utf8Encode [97; 55357; 98]%N = [97; 239; 191; 189; 98]%N
  /\ utf8Encode [56832; 55357]%N = [239; 191; 189; 239; 191; 189]%N
  /\ utf8Encode [55357; 56832]%N = [240; 159; 152; 128]%N
  /\ utf8Encode [233; 8364]%N = [195; 169; 226; 130; 172]%N.
Proof. vm_compute. done. Qed.

(** [applyFileEdits] always returns or throws: the fence loop ends. *)
Lemma applyFileEdits_terminates `{DiffPackage} `{FileSystem} (disk : Disk)
  (filePath : jsstring) (edits : list Edit) (dryRun : bool) :
  is_Some (applyFileEdits disk filePath edits dryRun).
Proof.
  unfold applyFileEdits.
  destruct (disk !! fileAt filePath) as [raw|]; [|done].
  destruct (applyEdits (normalizeLineEndings (utf8Decode raw)) edits); [|done].
  rewrite fenceLength_total. destruct dryRun; [done|]. cbn [negb].
  by destruct (writeOutcome filePath _) as [|[partial|]].
Qed.

(** C4. An edit whose old text matches the content the earlier edits left
    neither verbatim nor by a window of trimmed lines makes [applyFileEdits]
    throw the edit-not-found error; the later edits are not looked at and
    the disk is left as it was. *)
Theorem applyFileEdits_unmatched_edit_aborts `{DiffPackage} `{FileSystem}
  (disk : Disk) (filePath : jsstring) (raw : list N) (current : jsstring)
  (before after : list Edit) (edit : Edit) (dryRun : bool) :
  disk !! fileAt filePath = Some raw ->
  applyEdits (normalizeLineEndings (utf8Decode raw)) before = Ok current ->
  ~ occursIn (normalizeLineEndings (oldText edit)) current ->
  (forall i, ~ windowMatchesAt (lines (normalizeLineEndings (oldText edit)))
                               (lines current) i) ->
  applyFileEdits disk filePath (before ++ edit :: after) dryRun
  = Some (Throw (Error (js "Could not find exact match for edit:" ++ [JS.LF]
                        ++ oldText edit)), disk)
  /\ isEditNotFound
       (Throw (A := jsstring)
          (Error (js "Could not find exact match for edit:" ++ [JS.LF]
                  ++ oldText edit))) = true.
Proof.
  intros Hread Hbefore Hexact Hfuzzy. split; [|done].
  unfold applyFileEdits. rewrite Hread, applyEdits_app, Hbefore.
  cbn [applyEdits]. by rewrite applyEdit_unmatched.
Qed.

Lemma applyFileEdits_unmatched_edit_aborts_witness :
  applyFileEdits exampleDisk exampleFile
    ([ {| oldText := js "alpha"; newText := js "one" |} ]
     ++ {| oldText := js "alpha"; newText := js "two" |}
     :: [ {| oldText := js "beta"; newText := js "three" |} ]) false
  = Some (Throw (Error (js "Could not find exact match for edit:" ++ [JS.LF]
                        ++ js "alpha")), exampleDisk)
  /\ isEditNotFound
       (Throw (A := jsstring)
          (Error (js "Could not find exact match for edit:" ++ [JS.LF]
                  ++ js "alpha"))) = true.
Proof.
  apply (applyFileEdits_unmatched_edit_aborts exampleDisk exampleFile
           (js "alpha" ++ [JS.CR; JS.LF] ++ js "  beta" ++ [JS.CR; JS.LF])
           (js "one" ++ [JS.LF] ++ js "  beta" ++ [JS.LF])).
  - vm_compute. reflexivity.
  - vm_compute. reflexivity.
  - apply includes_false_not_occursIn. vm_compute. reflexivity.
  - apply windowLoop_None_no_match. vm_compute. reflexivity.
Defined.

(** C5. When the old text does not occur verbatim, the first window of the
    content, from the top, whose lines equal those of the old text once both
    are trimmed is replaced; the first line put in its place is the white
    space that started the window's first line followed by the first new
    line without its own leading white space. *)
Theorem applyEdit_fuzzy_first_window (content : jsstring) (edit : Edit)
  (i : nat) :
  ~ occursIn (normalizeLineEndings (oldText edit)) content ->
  windowMatchesAt (lines (normalizeLineEndings (oldText edit)))
                  (lines content) i ->
  (forall k, k < i ->
     ~ windowMatchesAt (lines (normalizeLineEndings (oldText edit)))
                       (lines content) k) ->
  exists windowFirst newFirst newRest replacedRest,
    lines content !! i = Some windowFirst /\
    lines (normalizeLineEndings (newText edit)) = newFirst :: newRest /\
    length replacedRest = length newRest /\
    applyEdit content edit
    = Ok (JS.join [JS.LF]
            (take i (lines content)
             ++ ((JS.leadingWhiteSpace windowFirst ++ JS.trimStart newFirst)
                 :: replacedRest)
             ++ drop (i + length (lines (normalizeLineEndings (oldText edit))))
                  (lines content))).
Proof.
  intros Hexact Hmatch Hfirst. unfold lines in *.
  destruct (split_cons JS.LF (normalizeLineEndings (oldText edit)))
    as (oldFirst & oldRest & Hold).
  destruct (split_cons JS.LF (normalizeLineEndings (newText edit)))
    as (newFirst & newRest & Hnew).
  destruct Hmatch as [Hrange Hall].
  destruct (Hall 0 oldFirst) as (windowFirst & Hwindow & _).
  { by rewrite Hold. }
  rewrite Nat.add_0_r in Hwindow.
  exists windowFirst, newFirst, newRest.
  eexists. split; [done|]. split; [done|].
  unfold applyEdit.
  destruct (JS.includes content (normalizeLineEndings (oldText edit))) eqn:Hinc.
  { by apply includes_occursIn in Hinc. }
  rewrite (windowLoop_first _ _ i) by done.
  unfold replaceWindow. rewrite Hwindow, Hnew, imap_cons.
  cbn [replacementLine].
  split; [|reflexivity]. by rewrite length_imap.
Qed.


Lemma applyEdit_fuzzy_first_window_witness :
  exists windowFirst newFirst newRest replacedRest,
    lines exampleSource !! 1 = Some windowFirst /\
    lines (normalizeLineEndings (newText exampleEdit)) = newFirst :: newRest /\
    length replacedRest = length newRest /\
    applyEdit exampleSource exampleEdit
    = Ok (JS.join [JS.LF]
            (take 1 (lines exampleSource)
             ++ ((JS.leadingWhiteSpace windowFirst ++ JS.trimStart newFirst)
                 :: replacedRest)
             ++ drop (1 + length (lines (normalizeLineEndings
                                           (oldText exampleEdit))))
                  (lines exampleSource))).
Proof.
  apply (applyEdit_fuzzy_first_window exampleSource exampleEdit 1).
  - apply includes_false_not_occursIn. vm_compute. reflexivity.
  - apply windowMatchesAt_test. vm_compute. split; [lia | reflexivity].
  - intros k Hk [_ Htest]%windowMatchesAt_test.
    assert (k = 0) as -> by lia. vm_compute in Htest. discriminate Htest.
Defined.

(** The content the example edit leaves: the first line keeps the two
    spaces of the window, the later lines are the new ones as given. *)
Example applyEdit_exampleSource :
  applyEdit exampleSource exampleEdit
  = Ok (unlines ["// guard"; "  if (x) {"; "z();"; "}"; ""]).
Proof. vm_compute. reflexivity. Qed.

(** C10. An edit whose old text is empty never throws: the content after it
    is the replacement followed by the whole content before it. The
    replacement is the new text with CR LF turned into LF whenever that text
    holds none of the sequences [$$], [$&], [$`] and [$'], the only ones
    [replace] reads as patterns; any other dollar sign is put as it is. *)
Theorem applyEdit_empty_oldText (content : jsstring) (edit : Edit) :
  oldText edit = [] ->
  exists inserted,
    applyEdit content edit = Ok (inserted ++ content) /\
    (hasReplacementPattern (normalizeLineEndings (newText edit)) = false ->
     inserted = normalizeLineEndings (newText edit)).
Proof.
  intros Hold.
  exists (JS.getSubstitution [] [] content (normalizeLineEndings (newText edit))).
  split.
  - unfold applyEdit, JS.includes, JS.replace. rewrite Hold. cbn [normalizeLineEndings].
    rewrite indexOf_nil. reflexivity.
  - apply getSubstitution_no_pattern.
Qed.

Lemma applyEdit_empty_oldText_witness :
  exists inserted,
    applyEdit (js "body")
      {| oldText := []; newText := js "US$ 5, $1 and $" |}
    = Ok (inserted ++ js "body") /\
    (hasReplacementPattern (normalizeLineEndings (js "US$ 5, $1 and $"))
     = false ->
     inserted = normalizeLineEndings (js "US$ 5, $1 and $")).
Proof.
  apply (applyEdit_empty_oldText (js "body")
           {| oldText := []; newText := js "US$ 5, $1 and $" |}).
  reflexivity.
Defined.

(** What is put at the start of the content is not always the new text:
    CR LF in it is put as LF, and [$$] is put as one dollar sign. *)
Lemma empty_oldText_not_inserted_verbatim :
  (applyEdit (js "body")
     {| oldText := []; newText := js "head" ++ [JS.CR; JS.LF] |}
   = Ok (js "head" ++ [JS.LF] ++ js "body")
   /\ applyEdit (js "body")
        {| oldText := []; newText := js "head" ++ [JS.CR; JS.LF] |}
      <> Ok ((js "head" ++ [JS.CR; JS.LF]) ++ js "body"))
  /\ (applyEdit (js "body") {| oldText := []; newText := js "$$" |}
      = Ok (js "$body")
      /\ applyEdit (js "body") {| oldText := []; newText := js "$$" |}
         <> Ok (js "$$" ++ js "body")).
Proof. vm_compute. repeat split; discriminate. Qed.

(** The four patterns with an empty old text: [$$] is one dollar sign,
    [$&] and [$`] are empty, [$'] is the whole content. A dollar sign
    followed by anything else is put as it is. *)
Example empty_oldText_dollar_patterns :
  applyEdit (js "body") {| oldText := []; newText := js "a$$b" |}
  = Ok (js "a$bbody")
  /\ applyEdit (js "body") {| oldText := []; newText := js "a$&b" |}
     = Ok (js "abbody")
  /\ applyEdit (js "body") {| oldText := []; newText := js "a$`b" |}
     = Ok (js "abbody")
  /\ applyEdit (js "body") {| oldText := []; newText := js "a$'b" |}
     = Ok (js "abodybbody")
  /\ applyEdit (js "body")
       {| oldText := []; newText := js "US$ 5, $1 and $" |}
     = Ok (js "US$ 5, $1 and $body").
Proof. vm_compute. done. Qed.




(** C8. The fence around the diff is as long as the longest run of backticks
    in the diff plus one, and never shorter than three. *)
Theorem applyFileEdits_fence_length `{DiffPackage} `{FileSystem}
  (disk disk' : Disk) (filePath formatted : jsstring) (edits : list Edit)
  (dryRun : bool) :
  applyFileEdits disk filePath edits dryRun = Some (Ok formatted, disk') ->
  exists raw modifiedContent,
    disk !! fileAt filePath = Some raw /\
    applyEdits (normalizeLineEndings (utf8Decode raw)) edits
    = Ok modifiedContent /\
    formatted
    = formatDiff
        (Nat.max 3
           (S (longestRun JS.BACKTICK
                 (createUnifiedDiff (normalizeLineEndings (utf8Decode raw))
                    modifiedContent filePath))))
        (createUnifiedDiff (normalizeLineEndings (utf8Decode raw))
           modifiedContent filePath).
Proof.
  unfold applyFileEdits.
  destruct (disk !! fileAt filePath) as [raw|]; [|intros [=]].
  destruct (applyEdits (normalizeLineEndings (utf8Decode raw)) edits)
    as [modifiedContent|] eqn:Hedits; [|intros [=]].
  rewrite fenceLength_total. intros Hrun.
  exists raw, modifiedContent. split; [done|]. split; [done|].
  destruct dryRun; cbn [negb] in Hrun; [by injection Hrun as <- _|].
  destruct (writeOutcome filePath _) as [|[partial|]];
    [by injection Hrun as <- _ | discriminate Hrun | discriminate Hrun].
Qed.


Lemma applyFileEdits_fence_length_witness :
  exists raw modifiedContent,
    exampleDisk !! fileAt exampleFile = Some raw /\
    applyEdits (normalizeLineEndings (utf8Decode raw))
      [ {| oldText := js "alpha"; newText := js "````" |} ] = Ok modifiedContent /\
    formatDiff 5
      (createUnifiedDiff
         (js "alpha" ++ [JS.LF] ++ js "  beta" ++ [JS.LF])
         (js "````" ++ [JS.LF] ++ js "  beta" ++ [JS.LF]) exampleFile)
    = formatDiff
        (Nat.max 3
           (S (longestRun JS.BACKTICK
                 (createUnifiedDiff (normalizeLineEndings (utf8Decode raw))
                    modifiedContent exampleFile))))
        (createUnifiedDiff (normalizeLineEndings (utf8Decode raw))
           modifiedContent exampleFile).
Proof.
  apply (applyFileEdits_fence_length exampleDisk exampleDisk exampleFile
           (formatDiff 5
              (createUnifiedDiff
                 (js "alpha" ++ [JS.LF] ++ js "  beta" ++ [JS.LF])
                 (js "````" ++ [JS.LF] ++ js "  beta" ++ [JS.LF]) exampleFile))
           [ {| oldText := js "alpha"; newText := js "````" |} ] true).
  vm_compute. reflexivity.
Defined.

(** A diff without any backtick is fenced by three of them, not by one. *)
Lemma fence_of_three_without_backticks :
  exists diff,
    applyFileEdits exampleDisk exampleFile [] true
    = Some (Ok (formatDiff 3 diff), exampleDisk)
    /\ longestRun JS.BACKTICK diff = 0
    /\ fenceLength diff = Some 3
    /\ fenceLength diff <> Some (S (longestRun JS.BACKTICK diff)).
Proof.
  exists (createUnifiedDiff
            (js "alpha" ++ [JS.LF] ++ js "  beta" ++ [JS.LF])
            (js "alpha" ++ [JS.LF] ++ js "  beta" ++ [JS.LF]) exampleFile).
  split; [vm_compute; reflexivity|].
  split; [vm_compute; reflexivity|].
  split; [vm_compute; reflexivity|].
  vm_compute. discriminate.
Qed.

(** * Further properties *)

(** ** The path sandbox *)

(** X1. Every path [validatePath] returns starts, once normalized, with an
    entry of the allow-list. *)
Theorem validatePath_result_allowed (env : Env) (p validPath : jsstring) :
  validatePath env p = Ok validPath ->
  isAllowed env (normalizePath validPath) = true.
Proof.
  intros Hvalid.
  destruct (isAllowed env (normalizePath (absolutePath env p))) eqn:Hfirst.
  - rewrite validatePath_after_first_check in Hvalid by done.
    destruct (realpath env (absolutePath env p)) as [realPath|].
    + destruct (isAllowed env (normalizePath realPath)) eqn:Hreal.
      * by injection Hvalid as <-.
      * destruct (realpath env (path.dirname (absolutePath env p)))
          as [parent|]; [|done].
        destruct (isAllowed env (normalizePath parent)); [|done].
        by injection Hvalid as <-.
    + destruct (realpath env (path.dirname (absolutePath env p)))
        as [parent|]; [|done].
      destruct (isAllowed env (normalizePath parent)); [|done].
      by injection Hvalid as <-.
  - unfold validatePath in Hvalid. by rewrite Hfirst in Hvalid.
Qed.

Lemma validatePath_result_allowed_witness :
  isAllowed exampleEnv (normalizePath (js "/allowed/sub")) = true.
Proof.
  apply (validatePath_result_allowed exampleEnv (js "/allowed/./sub/")).
  vm_compute. reflexivity.
Defined.

(** X2. A path that passes the first check and that [fs.realpath] resolves
    to a path in the allow-list is returned in its canonical form. *)
Theorem validatePath_returns_canonical (env : Env) (p realPath : jsstring) :
  isAllowed env (normalizePath (absolutePath env p)) = true ->
  realpath env (absolutePath env p) = Some realPath ->
  isAllowed env (normalizePath realPath) = true ->
  validatePath env p = Ok realPath.
Proof.
  intros Hfirst Hreal Hinside.
  by rewrite validatePath_after_first_check, Hreal, Hinside.
Qed.

Lemma validatePath_returns_canonical_witness :
  validatePath aliasEnv (js "/allowed/alias") = Ok (js "/allowed/sub").
Proof.
  apply validatePath_returns_canonical.
  - vm_compute. reflexivity.
  - vm_compute. reflexivity.
  - vm_compute. reflexivity.
Defined.

(** X3. [validatePath] fails with an access-denied error exactly when the
    normalized absolute form of the requested path starts with no entry of
    the allow-list. *)
Theorem validatePath_access_denied_iff (env : Env) (p : jsstring) :
  isAccessDenied (validatePath env p)
  = negb (isAllowed env (normalizePath (absolutePath env p))).
Proof.
  destruct (isAllowed env (normalizePath (absolutePath env p))) eqn:Hfirst.
  - by apply validatePath_denies_only_at_first_check.
  - unfold validatePath. by rewrite Hfirst.
Qed.

(** X4. No rejection of [fs.realpath] leaves [validatePath]: it returns a
    path or throws one of its two own errors. *)
Theorem validatePath_throws_own_errors (env : Env) (p : jsstring) :
  match validatePath env p with
  | Ok _ => True
  | Throw (Error message) =>
      JS.startsWith message
        (js "Access denied - path outside allowed directories: ") = true
      \/ JS.startsWith message (js "Parent directory does not exist: ") = true
  | Throw (SystemError _) => False
  end.
Proof.
  destruct (isAllowed env (normalizePath (absolutePath env p))) eqn:Hfirst.
  - rewrite validatePath_after_first_check by done.
    destruct (realpath env (absolutePath env p)) as [realPath|];
      [destruct (isAllowed env (normalizePath realPath)); [done|]|];
      (destruct (realpath env (path.dirname (absolutePath env p)))
         as [parent|];
       [destruct (isAllowed env (normalizePath parent)); [done|]|]);
      right; apply startsWith_prefix; by eexists.
  - unfold validatePath. rewrite Hfirst. left.
    apply startsWith_prefix. by eexists.
Qed.

Lemma splitAux_snoc (sep : N) (cur s : jsstring) :
  JS.splitAux sep cur (s ++ [sep]) = JS.splitAux sep cur s ++ [[]].
Proof.
  revert cur. induction s as [|c s IH]; intros cur; cbn [app JS.splitAux].
  - by rewrite N.eqb_refl.
  - destruct (N.eqb c sep); [|apply IH]. cbn [app]. f_equal. apply IH.
Qed.

Lemma normalizeSegments_snoc_empty (allowAboveRoot : bool)
  (stack segs : list jsstring) :
  path.normalizeSegments allowAboveRoot stack (segs ++ [[]])
  = path.normalizeSegments allowAboveRoot stack segs.
Proof.
  revert stack. induction segs as [|seg rest IH]; intros stack; [done|].
  cbn [app path.normalizeSegments].
  destruct (bool_decide (seg = []) || bool_decide (seg = [JS.DOT])); [done|].
  destruct (path.isDotDot seg); [|done].
  destruct stack as [|top below]; [done|]. by destruct (path.isDotDot top).
Qed.

Lemma resolveLoop_ends_absolute (cwd : jsstring)
  (reversedArgs : list jsstring) (resolvedPath : jsstring) :
  path.isAbsolute cwd = true ->
  (path.resolveLoop (reversedArgs ++ [cwd]) resolvedPath).2 = true.
Proof.
  intros Hcwd. revert resolvedPath.
  induction reversedArgs as [|arg rest IH]; intros resolvedPath.
  - destruct cwd as [|c cwd]; [done|]. cbn [app path.resolveLoop].
    by rewrite Hcwd.
  - cbn [app path.resolveLoop]. destruct arg as [|c arg]; [apply IH|].
    destruct (path.isAbsolute (c :: arg)); [done | apply IH].
Qed.

(** In a process whose working directory is absolute, [path.resolve] gives a
    slash followed by plain segments. *)
Lemma resolve_absolute_form (cwd : jsstring) (args : list jsstring) :
  path.isAbsolute cwd = true ->
  exists segs,
    path.resolve cwd args = JS.SLASH :: JS.join [JS.SLASH] segs /\
    normalSegments false segs /\
    Forall (fun seg => JS.SLASH ∉ seg) segs.
Proof.
  intros Hcwd. unfold path.resolve.
  pose proof (resolveLoop_ends_absolute cwd (reverse args) [] Hcwd) as Habs.
  destruct (path.resolveLoop (reverse args ++ [cwd]) [])
    as [resolvedPath resolvedAbsolute].
  cbn [snd] in Habs. subst resolvedAbsolute. unfold path.normalizeString.
  eexists. split; [reflexivity|]. split.
  - apply (normalizeSegments_normal false _ [] 0); done.
  - apply normalizeSegments_Forall; [done | apply split_no_sep].
Qed.

Lemma resolve_fixed (cwd : jsstring) (segs : list jsstring) :
  normalSegments false segs ->
  Forall (fun seg => JS.SLASH ∉ seg) segs ->
  path.resolve cwd [JS.SLASH :: JS.join [JS.SLASH] segs]
  = JS.SLASH :: JS.join [JS.SLASH] segs.
Proof.
  intros Hnormal Hslash. unfold path.resolve.
  cbn [reverse rev_append app path.resolveLoop path.isAbsolute].
  rewrite N.eqb_refl. cbn [negb]. f_equal.
  unfold path.normalizeString, JS.split.
  cbn [app JS.splitAux]. rewrite N.eqb_refl.
  replace (JS.join [JS.SLASH] segs ++ [JS.SLASH] ++ [])
    with (JS.join [JS.SLASH] segs ++ [JS.SLASH]) by done.
  rewrite splitAux_snoc.
  destruct segs as [|first rest]; [done|].
  rewrite splitAux_join by done.
  change (path.normalizeSegments false []
            (reverse [] :: ((reverse [] ++ first) :: rest) ++ [[]]))
    with (path.normalizeSegments false [] ((first :: rest) ++ [[]])).
  by rewrite normalizeSegments_snoc_empty, normalizeSegments_fixed.
Qed.

Lemma expandHome_absolute (env : Env) (filepath : jsstring) :
  path.isAbsolute filepath = true -> expandHome env filepath = filepath.
Proof.
  destruct filepath as [|c rest]; [done|]. cbn [path.isAbsolute].
  intros ->%N.eqb_eq. unfold expandHome.
  replace (JS.startsWith (JS.SLASH :: rest) (js "~/")) with false by done.
  by rewrite bool_decide_eq_false_2.
Qed.

Lemma absolutePath_form (env : Env) (p : jsstring) :
  path.isAbsolute (cwd env) = true ->
  exists segs,
    absolutePath env p = JS.SLASH :: JS.join [JS.SLASH] segs /\
    normalSegments false segs /\
    Forall (fun seg => JS.SLASH ∉ seg) segs.
Proof.
  intros Hcwd. unfold absolutePath.
  destruct (path.isAbsolute (expandHome env p));
    by apply resolve_absolute_form.
Qed.

Lemma absolutePath_idempotent (env : Env) (p : jsstring) :
  path.isAbsolute (cwd env) = true ->
  absolutePath env (absolutePath env p) = absolutePath env p.
Proof.
  intros Hcwd.
  destruct (absolutePath_form env p Hcwd) as (segs & -> & Hnormal & Hslash).
  unfold absolutePath. rewrite expandHome_absolute by done.
  cbn [path.isAbsolute]. rewrite N.eqb_refl. by apply resolve_fixed.
Qed.

(** X5. In a process whose working directory is absolute, [validatePath]
    answers for the absolute form of a path what it answers for the path:
    the spelling of the request ([.], [..], doubled slashes, [~]) does not
    count. *)
Theorem validatePath_of_absolute_form (env : Env) (p : jsstring) :
  path.isAbsolute (cwd env) = true ->
  validatePath env (absolutePath env p) = validatePath env p.
Proof.
  intros Hcwd. unfold validatePath. by rewrite absolutePath_idempotent.
Qed.

Lemma validatePath_of_absolute_form_witness :
  validatePath exampleEnv (absolutePath exampleEnv (js "~/../../allowed//sub/."))
  = validatePath exampleEnv (js "~/../../allowed//sub/.").
Proof.
  apply validatePath_of_absolute_form. vm_compute. reflexivity.
Defined.

Lemma startsWith_refl (s : jsstring) : JS.startsWith s s = true.
Proof. apply startsWith_prefix. done. Qed.

Lemma resolve_from_cwd (cwd x : jsstring) :
  path.isAbsolute cwd = true ->
  path.isAbsolute x = false ->
  path.resolve cwd [cwd; x] = path.resolve cwd [x].
Proof.
  intros Hcwd Hx. unfold path.resolve.
  cbn [reverse rev_append app path.resolveLoop].
  destruct cwd as [|c cwd]; [done|].
  destruct x as [|d x]; [by rewrite Hcwd|]. by rewrite Hx, Hcwd.
Qed.

(** X6. In a process whose working directory is absolute, no directory
    given on the command line is denied by [validatePath]. *)
Theorem validatePath_configured_directory (env : Env) (args : list jsstring)
  (dir : jsstring) :
  path.isAbsolute (cwd env) = true ->
  allowedDirectories env = allowedDirectoriesOf env args ->
  dir ∈ args ->
  isAccessDenied (validatePath env dir) = false.
Proof.
  intros Hcwd Hconfigured Hdir.
  apply validatePath_denies_only_at_first_check.
  rewrite absolutePath_normalized. unfold isAllowed.
  apply existsb_exists.
  exists (normalizePath (path.resolve (cwd env) [expandHome env dir])).
  split.
  - rewrite Hconfigured. unfold allowedDirectoriesOf.
    apply in_map_iff. exists dir. split; [done|]. by apply list_elem_of_In.
  - unfold normalizePath. rewrite resolve_normalized. unfold absolutePath.
    destruct (path.isAbsolute (expandHome env dir)) eqn:Habs.
    + apply startsWith_refl.
    + rewrite resolve_from_cwd by done. apply startsWith_refl.
Qed.

Lemma validatePath_configured_directory_witness :
  isAccessDenied (validatePath exampleEnv (js "/allowed/")) = false.
Proof.
  apply (validatePath_configured_directory exampleEnv [js "/allowed/"]).
  - vm_compute. reflexivity.
  - vm_compute. reflexivity.
  - apply list_elem_of_here.
Defined.

(** ** The bounded recursive search *)

Section SearchMore.
Context `{MinimatchPackage} `{CaseMapping}.
Variable env : Env.
Variables (rootPath pattern : jsstring) (excludePatterns : list jsstring).

Lemma search_Directory (entries : list (jsstring * Tree))
  (currentPath : jsstring) (results : list jsstring) :
  search env rootPath pattern excludePatterns (Directory (Some entries))
    currentPath results
  = searchEntries env rootPath pattern excludePatterns currentPath entries
      results.
Proof.
  revert results. induction entries as [|[name child] rest IH];
    intros results; [reflexivity|].
  cbn [search searchEntries].
  destruct (validatePath env (path.join [currentPath; name]));
    [|exact (IH results)].
  destruct (shouldExclude env rootPath excludePatterns
              (path.join [currentPath; name])); [exact (IH results)|].
  destruct child as [|listing]; [exact (IH _)|].
  destruct (search env rootPath pattern excludePatterns (Directory listing)
              (path.join [currentPath; name]) _) as [results2 outcome].
  exact (IH results2).
Qed.

Lemma searchEntries_app (currentPath : jsstring)
  (before after : list (jsstring * Tree)) (results : list jsstring) :
  searchEntries env rootPath pattern excludePatterns currentPath
    (before ++ after) results
  = searchEntries env rootPath pattern excludePatterns currentPath after
      (searchEntries env rootPath pattern excludePatterns currentPath before
         results).1.
Proof.
  revert results. induction before as [|[name child] before IH];
    intros results; [done|].
  cbn [app searchEntries].
  destruct (validatePath env (path.join [currentPath; name])); [|apply IH].
  destruct (shouldExclude env rootPath excludePatterns
              (path.join [currentPath; name])); [apply IH|].
  destruct child as [|listing]; [apply IH|].
  destruct (search env rootPath pattern excludePatterns (Directory listing)
              (path.join [currentPath; name]) _) as [results2 outcome].
  apply IH.
Qed.

(** The loop over the entries of a directory never throws. *)
Lemma searchEntries_outcome (currentPath : jsstring)
  (entries : list (jsstring * Tree)) (results : list jsstring) :
  (searchEntries env rootPath pattern excludePatterns currentPath entries
     results).2 = Ok tt.
Proof.
  revert results. induction entries as [|[name child] entries IH];
    intros results; [done|].
  cbn [searchEntries].
  destruct (validatePath env (path.join [currentPath; name])); [|apply IH].
  destruct (shouldExclude env rootPath excludePatterns
              (path.join [currentPath; name])); [apply IH|].
  destruct child as [|listing]; [apply IH|].
  destruct (search env rootPath pattern excludePatterns (Directory listing)
              (path.join [currentPath; name]) _) as [results2 outcome].
  apply IH.
Qed.

(** [search] only adds to the results it is given. *)
Lemma search_grows (node : Tree) (currentPath : jsstring)
  (results : list jsstring) :
  results `prefix_of`
    (search env rootPath pattern excludePatterns node currentPath results).1.
Proof.
  revert currentPath results.
  induction node as [| |entries IH] using Tree_ind;
    intros currentPath results; [done | done |].
  rewrite search_Directory. revert results.
  induction IH as [|[name child] rest Hchild _ IHrest]; intros results;
    [done|].
  cbn [searchEntries].
  destruct (validatePath env (path.join [currentPath; name])); [|apply IHrest].
  destruct (shouldExclude env rootPath excludePatterns
              (path.join [currentPath; name])); [apply IHrest|].
  set (results1 :=
         if JS.includes (toLowerCase name) (toLowerCase pattern)
         then results ++ [path.join [currentPath; name]] else results).
  assert (results `prefix_of` results1) as Hresults1.
  { unfold results1. case_match; [by apply prefix_app_r | done]. }
  destruct child as [|listing].
  - etrans; [exact Hresults1 | apply IHrest].
  - specialize (Hchild (path.join [currentPath; name]) results1).
    cbn [snd] in Hchild.
    destruct (search env rootPath pattern excludePatterns (Directory listing)
                (path.join [currentPath; name]) results1)
      as [results2 outcome].
    etrans; [exact Hresults1|]. etrans; [exact Hchild | apply IHrest].
Qed.

Lemma searchEntries_grows (currentPath : jsstring)
  (entries : list (jsstring * Tree)) (results : list jsstring) :
  results `prefix_of`
    (searchEntries env rootPath pattern excludePatterns currentPath entries
       results).1.
Proof. rewrite <- search_Directory. apply search_grows. Qed.

(** X7. [searchFiles] throws only when the root directory cannot be listed:
    whatever fails below the root, a path that [validatePath] rejects or a
    directory that cannot be read, is skipped. *)
Theorem searchFiles_fails_only_at_root (root : Tree) :
  match searchFiles env rootPath pattern excludePatterns root with
  | Ok _ => exists entries, root = Directory (Some entries)
  | Throw _ => root = File \/ root = Directory None
  end.
Proof.
  unfold searchFiles. destruct root as [|[entries|]].
  - by left.
  - rewrite search_Directory.
    pose proof (searchEntries_outcome rootPath entries []) as Hok.
    destruct (searchEntries env rootPath pattern excludePatterns rootPath
                entries []) as [results outcome].
    cbn [snd] in Hok. subst outcome. by exists entries.
  - by right.
Qed.

(** Every path [search] pushes is the path of an entry of a directory the
    search reads, has passed [validatePath] and the exclusion test, and the
    name of the entry holds the pattern, letter case apart. *)
Lemma search_pushes_valid_matches (root node : Tree) (currentPath : jsstring)
  (results : list jsstring) (P : jsstring -> Prop) :
  (forall entries dir name child validPath,
     Visits env rootPath excludePatterns root (Directory (Some entries)) dir ->
     (name, child) ∈ entries ->
     validatePath env (path.join [dir; name]) = Ok validPath ->
     shouldExclude env rootPath excludePatterns (path.join [dir; name])
     = false ->
     JS.includes (toLowerCase name) (toLowerCase pattern) = true ->
     P (path.join [dir; name])) ->
  Visits env rootPath excludePatterns root node currentPath ->
  Forall P results ->
  Forall P
    (search env rootPath pattern excludePatterns node currentPath results).1.
Proof.
  intros HP. revert currentPath results.
  induction node as [| |entries IH] using Tree_ind;
    intros currentPath results Hvisits Hresults; [done | done |].
  rewrite search_Directory. rewrite Forall_forall in IH.
  assert (forall rest,
            (forall entry, entry ∈ rest -> entry ∈ entries) ->
            forall results,
              Forall P results ->
              Forall P
                (searchEntries env rootPath pattern excludePatterns
                   currentPath rest results).1) as Hloop;
    [|by apply Hloop].
  clear results Hresults.
  induction rest as [|[name child] rest IHrest]; intros Hsub results Hresults;
    [done|].
  assert ((name, child) ∈ entries) as Hin
    by (apply Hsub, list_elem_of_here).
  assert (forall entry, entry ∈ rest -> entry ∈ entries) as Hrest
    by (intros entry Hentry; by apply Hsub, list_elem_of_further).
  cbn [searchEntries].
  destruct (validatePath env (path.join [currentPath; name])) eqn:Hvalid;
    [|by apply IHrest].
  destruct (shouldExclude env rootPath excludePatterns
              (path.join [currentPath; name])) eqn:Hexcl; [by apply IHrest|].
  set (results1 :=
         if JS.includes (toLowerCase name) (toLowerCase pattern)
         then results ++ [path.join [currentPath; name]] else results).
  assert (Forall P results1) as Hresults1.
  { unfold results1. case_match eqn:Hname; [|done].
    apply Forall_app. split; [done|]. constructor; [|done].
    by eapply HP. }
  destruct child as [|listing]; [by apply IHrest|].
  pose proof (IH _ Hin (path.join [currentPath; name]) results1
                (visits_entry _ _ _ _ _ _ _ _ _ Hvisits Hin Hvalid Hexcl)
                Hresults1) as Hchild.
  cbn [snd] in Hchild.
  destruct (search env rootPath pattern excludePatterns (Directory listing)
              (path.join [currentPath; name]) results1) as [results2 outcome].
  by apply IHrest.
Qed.

(** X8. Every path [searchFiles] returns is the path of an entry of a
    directory the search reads: the path of that directory joined with the
    name of the entry. [validatePath] accepts it, no exclude pattern
    matches it, and the name of the entry contains the search pattern once
    both are put in lower case. *)
Theorem searchFiles_results_valid_and_matching (root : Tree)
  (results : list jsstring) (p : jsstring) :
  searchFiles env rootPath pattern excludePatterns root = Ok results ->
  p ∈ results ->
  exists entries currentPath name child validPath,
    Visits env rootPath excludePatterns root (Directory (Some entries))
      currentPath /\
    (name, child) ∈ entries /\
    p = path.join [currentPath; name] /\
    validatePath env p = Ok validPath /\
    shouldExclude env rootPath excludePatterns p = false /\
    JS.includes (toLowerCase name) (toLowerCase pattern) = true.
Proof.
  intros Hsearch Hin. unfold searchFiles in Hsearch.
  pose proof (search_pushes_valid_matches root root rootPath []
    (fun p => exists entries currentPath name child validPath,
       Visits env rootPath excludePatterns root (Directory (Some entries))
         currentPath /\
       (name, child) ∈ entries /\
       p = path.join [currentPath; name] /\
       validatePath env p = Ok validPath /\
       shouldExclude env rootPath excludePatterns p = false /\
       JS.includes (toLowerCase name) (toLowerCase pattern) = true))
    as Hall.
  destruct (search env rootPath pattern excludePatterns root rootPath [])
    as [found [[]|e]]; [|done].
  injection Hsearch as <-. cbn [fst] in Hall.
  assert (Forall
            (fun p => exists entries currentPath name child validPath,
               Visits env rootPath excludePatterns root
                 (Directory (Some entries)) currentPath /\
               (name, child) ∈ entries /\
               p = path.join [currentPath; name] /\
               validatePath env p = Ok validPath /\
               shouldExclude env rootPath excludePatterns p = false /\
               JS.includes (toLowerCase name) (toLowerCase pattern) = true)
            found) as Hfound.
  { apply Hall; [|apply visits_root|done].
    intros entries dir name child validPath Hvisits Hentry Hvalid Hexcl Hname.
    by exists entries, dir, name, child, validPath. }
  rewrite Forall_forall in Hfound. by apply Hfound.
Qed.

(** X9. For an exclude pattern that holds a [*], no path [searchFiles]
    returns is one whose path relative to the root matches the pattern,
    taken as a glob as it stands. *)
Theorem searchFiles_wildcard_exclusion (root : Tree)
  (results : list jsstring) (exclude p : jsstring) :
  searchFiles env rootPath pattern excludePatterns root = Ok results ->
  exclude ∈ excludePatterns ->
  JS.includes exclude [JS.STAR] = true ->
  minimatch (path.relative (cwd env) rootPath p) exclude = true ->
  p ∉ results.
Proof.
  intros Hsearch Hexclude Hstar Hglob Hin.
  assert (Forall (fun p => shouldExclude env rootPath excludePatterns p = false)
            results) as Hall.
  { unfold searchFiles in Hsearch.
    pose proof (search_pushes_unexcluded env rootPath pattern excludePatterns
                  root rootPath [] (Forall_nil_2 _)) as Hkept.
    destruct (search env rootPath pattern excludePatterns root rootPath [])
      as [found [[]|e]]; [|done].
    by injection Hsearch as <-. }
  rewrite Forall_forall in Hall. specialize (Hall p Hin).
  unfold shouldExclude in Hall.
  assert (existsb
            (fun pattern0 =>
               minimatch (path.relative (cwd env) rootPath p)
                 (globPattern pattern0)) excludePatterns = true) as Hsome.
  { apply existsb_exists. exists exclude. split.
    - by apply list_elem_of_In.
    - unfold globPattern. by rewrite Hstar. }
  congruence.
Qed.

End SearchMore.

Lemma searchFiles_results_valid_and_matching_witness :
  exists entries currentPath name child validPath,
    Visits plainEnv (js "/allowed") [js "node_modules"] exampleTree
      (Directory (Some entries)) currentPath /\
    (name, child) ∈ entries /\
    js "/allowed/a/b/index.txt" = path.join [currentPath; name] /\
    validatePath plainEnv (js "/allowed/a/b/index.txt") = Ok validPath /\
    shouldExclude plainEnv (js "/allowed") [js "node_modules"]
      (js "/allowed/a/b/index.txt") = false /\
    JS.includes (toLowerCase name) (toLowerCase (js "INDEX")) = true.
Proof.
  apply (searchFiles_results_valid_and_matching plainEnv (js "/allowed")
           (js "INDEX") [js "node_modules"] exampleTree
           [js "/allowed/a/b/index.txt"]).
  - vm_compute. reflexivity.
  - apply list_elem_of_here.
Defined.

Lemma searchFiles_wildcard_exclusion_witness :
  js "/allowed/a/b/index.txt"
  ∉ [js "/allowed/a"; js "/allowed/a/b"; js "/allowed/a/b/node_modules";
     js "/allowed/a/b/node_modules/x.txt"].
Proof.
  apply (@searchFiles_wildcard_exclusion starSegments
           asciiLowerCase plainEnv (js "/allowed") (js "")
           [js "a/*/index.txt"] exampleTree _ (js "a/*/index.txt")).
  - vm_compute. reflexivity.
  - apply list_elem_of_here.
  - vm_compute. reflexivity.
  - vm_compute. reflexivity.
Defined.

Section SearchCompleteness.
Context `{MinimatchPackage} `{CaseMapping}.
Variable env : Env.
Variables (rootPath pattern : jsstring) (excludePatterns : list jsstring).

(** X10. An entry that [validatePath] rejects or that an exclude pattern
    matches counts for nothing, with all that lies below it: the search of
    the directory gives what it gives without the entry. *)
Theorem search_skips_entry (before after : list (jsstring * Tree))
  (name currentPath : jsstring) (child : Tree) (results : list jsstring) :
  (exists e, validatePath env (path.join [currentPath; name]) = Throw e)
  \/ shouldExclude env rootPath excludePatterns (path.join [currentPath; name])
     = true ->
  search env rootPath pattern excludePatterns
    (Directory (Some (before ++ (name, child) :: after))) currentPath results
  = search env rootPath pattern excludePatterns
      (Directory (Some (before ++ after))) currentPath results.
Proof.
  intros Hskip. rewrite !search_Directory, !searchEntries_app.
  cbn [searchEntries]. destruct Hskip as [[e ->]|Hexcl]; [done|].
  destruct (validatePath env (path.join [currentPath; name])); [|done].
  by rewrite Hexcl.
Qed.

Lemma search_finds_entry (entries : list (jsstring * Tree))
  (currentPath name validPath : jsstring) (child : Tree)
  (results : list jsstring) :
  (name, child) ∈ entries ->
  validatePath env (path.join [currentPath; name]) = Ok validPath ->
  shouldExclude env rootPath excludePatterns (path.join [currentPath; name])
  = false ->
  JS.includes (toLowerCase name) (toLowerCase pattern) = true ->
  path.join [currentPath; name]
  ∈ (search env rootPath pattern excludePatterns (Directory (Some entries))
       currentPath results).1.
Proof.
  intros (before & after & ->)%list_elem_of_split Hvalid Hexcl Hname.
  rewrite search_Directory, searchEntries_app. cbn [searchEntries].
  rewrite Hvalid, Hexcl, Hname.
  set (results0 := (searchEntries env rootPath pattern excludePatterns
                      currentPath before results).1).
  assert (path.join [currentPath; name]
          ∈ results0 ++ [path.join [currentPath; name]]) as Hin.
  { apply elem_of_app. right. apply list_elem_of_here. }
  destruct child as [|listing].
  - eapply elem_of_prefix; [exact Hin | apply searchEntries_grows].
  - pose proof (search_grows env rootPath pattern excludePatterns
                  (Directory listing) (path.join [currentPath; name])
                  (results0 ++ [path.join [currentPath; name]])) as Hgrow.
    destruct (search env rootPath pattern excludePatterns (Directory listing)
                (path.join [currentPath; name])
                (results0 ++ [path.join [currentPath; name]]))
      as [results2 outcome].
    cbn [fst] in Hgrow.
    eapply elem_of_prefix; [|apply searchEntries_grows].
    eapply elem_of_prefix; [exact Hin | exact Hgrow].
Qed.

Lemma search_finds_below (entries : list (jsstring * Tree))
  (currentPath name validPath target : jsstring)
  (listing : option (list (jsstring * Tree))) :
  (name, Directory listing) ∈ entries ->
  validatePath env (path.join [currentPath; name]) = Ok validPath ->
  shouldExclude env rootPath excludePatterns (path.join [currentPath; name])
  = false ->
  (forall results,
     target ∈ (search env rootPath pattern excludePatterns
                 (Directory listing) (path.join [currentPath; name])
                 results).1) ->
  forall results,
    target ∈ (search env rootPath pattern excludePatterns
                (Directory (Some entries)) currentPath results).1.
Proof.
  intros (before & after & ->)%list_elem_of_split Hvalid Hexcl Hbelow results.
  rewrite search_Directory, searchEntries_app. cbn [searchEntries].
  rewrite Hvalid, Hexcl.
  match goal with
  | |- context [search _ _ _ _ (Directory listing) _ ?r] =>
      specialize (Hbelow r);
      destruct (search env rootPath pattern excludePatterns
                  (Directory listing) (path.join [currentPath; name]) r)
        as [results2 outcome]
  end.
  cbn [fst] in Hbelow.
  eapply elem_of_prefix; [exact Hbelow | apply searchEntries_grows].
Qed.

Lemma search_finds_from_root (root node : Tree) (currentPath target : jsstring) :
  Visits env rootPath excludePatterns root node currentPath ->
  (forall results,
     target ∈ (search env rootPath pattern excludePatterns node currentPath
                 results).1) ->
  forall results,
    target ∈ (search env rootPath pattern excludePatterns root rootPath
                results).1.
Proof.
  induction 1 as [|entries currentPath name listing validPath _ IH Hin Hvalid
                    Hexcl]; [done|].
  intros Hbelow. apply IH. by eapply search_finds_below.
Qed.

(** X11. [searchFiles] misses nothing it should find: an entry of a
    directory the search reads is returned whenever [validatePath] accepts
    its path, no exclude pattern matches it and its name contains the search
    pattern once both are put in lower case. *)
Theorem searchFiles_finds_matching_entry (root : Tree)
  (results : list jsstring) (entries : list (jsstring * Tree))
  (currentPath name validPath : jsstring) (child : Tree) :
  searchFiles env rootPath pattern excludePatterns root = Ok results ->
  Visits env rootPath excludePatterns root (Directory (Some entries))
    currentPath ->
  (name, child) ∈ entries ->
  validatePath env (path.join [currentPath; name]) = Ok validPath ->
  shouldExclude env rootPath excludePatterns (path.join [currentPath; name])
  = false ->
  JS.includes (toLowerCase name) (toLowerCase pattern) = true ->
  path.join [currentPath; name] ∈ results.
Proof.
  intros Hsearch Hvisits Hin Hvalid Hexcl Hname.
  pose proof (search_finds_from_root root _ currentPath
                (path.join [currentPath; name]) Hvisits) as Hfound.
  specialize (Hfound
    (fun results => search_finds_entry entries currentPath name validPath
                      child results Hin Hvalid Hexcl Hname) []).
  unfold searchFiles in Hsearch.
  destruct (search env rootPath pattern excludePatterns root rootPath [])
    as [found [[]|e]]; [|done].
  by injection Hsearch as <-.
Qed.

End SearchCompleteness.

Lemma search_skips_entry_witness :
  search plainEnv (js "/allowed") (js "") [js "node_modules"]
    (Directory (Some
       ([] ++ (js "deep", Directory (Some [ (js "y.txt", File) ])) :: [])))
    (js "/allowed/a/b/node_modules") []
  = search plainEnv (js "/allowed") (js "") [js "node_modules"]
      (Directory (Some ([] ++ []))) (js "/allowed/a/b/node_modules") [].
Proof.
  apply search_skips_entry. right. vm_compute. reflexivity.
Defined.

Lemma searchFiles_finds_matching_entry_witness :
  path.join [path.join [path.join [js "/allowed"; js "a"]; js "b"];
             js "index.txt"]
  ∈ [js "/allowed/a/b/index.txt"].
Proof.
  apply (searchFiles_finds_matching_entry plainEnv (js "/allowed")
           (js "INDEX") [js "node_modules"] exampleTree
           [js "/allowed/a/b/index.txt"] entriesOfB
           (path.join [path.join [js "/allowed"; js "a"]; js "b"])
           (js "index.txt") (js "/allowed/a/b/index.txt") File).
  - vm_compute. reflexivity.
  - apply (visits_entry plainEnv (js "/allowed") [js "node_modules"]
             exampleTree entriesOfA (path.join [js "/allowed"; js "a"])
             (js "b") (Some entriesOfB) (js "/allowed/a/b")).
    + apply (visits_entry plainEnv (js "/allowed") [js "node_modules"]
               exampleTree [ (js "a", Directory (Some entriesOfA)) ]
               (js "/allowed") (js "a") (Some entriesOfA) (js "/allowed/a")).
      * apply visits_root.
      * apply list_elem_of_here.
      * vm_compute. reflexivity.
      * vm_compute. reflexivity.
    + apply list_elem_of_here.
    + vm_compute. reflexivity.
    + vm_compute. reflexivity.
  - apply list_elem_of_here.
  - vm_compute. reflexivity.
  - vm_compute. reflexivity.
  - vm_compute. reflexivity.
Defined.

(** ** The directory tree *)

Lemma buildTree_Directory (env : Env) (entries : list (jsstring * Tree))
  (currentPath : jsstring) :
  buildTree env (Directory (Some entries)) currentPath
  = match validatePath env currentPath with
    | Ok _ => buildEntries env currentPath entries []
    | Throw e => Throw e
    end.
Proof.
  cbn [buildTree]. destruct (validatePath env currentPath); [|done].
  generalize (@nil TreeEntry) at 3 4 as built.
  induction entries as [|[name child] rest IH]; intros built; [reflexivity|].
  cbn [buildEntries]. destruct child as [|listing]; [exact (IH _)|].
  destruct (buildTree env (Directory listing) (path.join [currentPath; name]));
    [exact (IH _) | reflexivity].
Qed.

Lemma buildTree_rejected (env : Env) (node : Tree) (currentPath : jsstring)
  (e : exn) :
  validatePath env currentPath = Throw e ->
  buildTree env node currentPath = Throw e.
Proof. intros Hthrow. destruct node as [|[entries|]]; cbn [buildTree]; by rewrite Hthrow. Qed.

Lemma buildEntries_app (env : Env) (currentPath : jsstring)
  (before after : list (jsstring * Tree)) (built : list TreeEntry) :
  buildEntries env currentPath (before ++ after) built
  = match buildEntries env currentPath before built with
    | Ok built' => buildEntries env currentPath after built'
    | Throw e => Throw e
    end.
Proof.
  revert built. induction before as [|[name child] before IH]; intros built;
    [done|].
  cbn [app buildEntries]. destruct child as [|listing]; [apply IH|].
  destruct (buildTree env (Directory listing) (path.join [currentPath; name]));
    [apply IH | done].
Qed.

Lemma buildEntries_names (env : Env) (currentPath : jsstring)
  (entries : list (jsstring * Tree)) (built tree : list TreeEntry) :
  buildEntries env currentPath entries built = Ok tree ->
  map entryName tree = map entryName built ++ map fst entries
  /\ map isDirectoryEntry tree
     = map isDirectoryEntry built ++ map (fun e => isDirectoryNode e.2) entries.
Proof.
  revert built. induction entries as [|[name child] rest IH]; intros built.
  - intros [= <-]. by rewrite !app_nil_r.
  - cbn [buildEntries]. destruct child as [|listing].
    + intros [Hnames Hkinds]%IH. rewrite Hnames, Hkinds, !map_app.
      by rewrite <- !app_assoc.
    + destruct (buildTree env (Directory listing)
                  (path.join [currentPath; name])); [|done].
      intros [Hnames Hkinds]%IH. rewrite Hnames, Hkinds, !map_app.
      by rewrite <- !app_assoc.
Qed.

(** X12. When [buildTree] succeeds on a directory, the tree it returns
    lists the entries of the directory one for one and in their order, each
    with its name and as a directory exactly when it is one: nothing is
    filtered out. *)
Theorem buildTree_lists_every_entry (env : Env)
  (entries : list (jsstring * Tree)) (currentPath : jsstring)
  (tree : list TreeEntry) :
  buildTree env (Directory (Some entries)) currentPath = Ok tree ->
  map entryName tree = map fst entries
  /\ map isDirectoryEntry tree = map (fun e => isDirectoryNode e.2) entries.
Proof.
  rewrite buildTree_Directory.
  destruct (validatePath env currentPath); [|done].
  by intros Hbuilt%buildEntries_names.
Qed.

Lemma buildTree_lists_every_entry_witness :
  map entryName
    [FileEntry (js "index.txt");
     DirectoryEntry (js "node_modules") [FileEntry (js "x.txt")]]
  = map fst entriesOfB
  /\ map isDirectoryEntry
       [FileEntry (js "index.txt");
        DirectoryEntry (js "node_modules") [FileEntry (js "x.txt")]]
     = map (fun e => isDirectoryNode e.2) entriesOfB.
Proof.
  apply (buildTree_lists_every_entry plainEnv entriesOfB (js "/allowed/a/b")).
  vm_compute. reflexivity.
Defined.

(** X13. [buildTree] is all or nothing over the subdirectories: when
    [validatePath] rejects the path of an entry that is itself a directory,
    the call on the directory that holds it throws, where [search] would
    skip the entry. *)
Theorem buildTree_fails_on_rejected_entry (env : Env)
  (entries : list (jsstring * Tree)) (currentPath name : jsstring)
  (listing : option (list (jsstring * Tree))) (e : exn) :
  (name, Directory listing) ∈ entries ->
  validatePath env (path.join [currentPath; name]) = Throw e ->
  exists e', buildTree env (Directory (Some entries)) currentPath = Throw e'.
Proof.
  intros (before & after & ->)%list_elem_of_split Hthrow.
  rewrite buildTree_Directory.
  destruct (validatePath env currentPath); [|by eexists].
  rewrite buildEntries_app.
  destruct (buildEntries env currentPath before []); [|by eexists].
  cbn [buildEntries]. rewrite (buildTree_rejected _ _ _ e) by done.
  by eexists.
Qed.

Lemma buildTree_fails_on_rejected_entry_witness :
  exists e',
    buildTree exampleEnv (Directory (Some [ (js "ssl", Directory None) ]))
      (js "/allowed/link") = Throw e'.
Proof.
  apply (buildTree_fails_on_rejected_entry exampleEnv
           [ (js "ssl", Directory None) ] (js "/allowed/link") (js "ssl") None
           (Error (js "Parent directory does not exist: /allowed/link"))).
  - apply list_elem_of_here.
  - vm_compute. reflexivity.
Defined.

(** An entry that is no directory is listed although [validatePath] rejects
    its path: only the paths of directories are validated. *)
Example buildTree_lists_unvalidated_file :
  isAccessDenied (validatePath exampleEnv (js "/allowed/link/ssl")) = false
  /\ (exists e, validatePath exampleEnv (js "/allowed/link/ssl") = Throw e)
  /\ buildTree exampleEnv (Directory (Some [ (js "ssl", File) ]))
       (js "/allowed/link")
     = Ok [FileEntry (js "ssl")].
Proof. vm_compute. split; [done|]. split; [by eexists | done]. Qed.

(** ** Line endings *)

Lemma normalizeLineEndings_cons (c : N) (text : jsstring) :
  c <> JS.CR ->
  normalizeLineEndings (c :: text) = c :: normalizeLineEndings text.
Proof.
  intros Hc. destruct text as [|d rest]; [done|]. cbn [normalizeLineEndings].
  by rewrite (proj2 (N.eqb_neq c JS.CR) Hc).
Qed.

Lemma normalizeLineEndings_two (c d : N) (rest : jsstring) :
  normalizeLineEndings (c :: d :: rest)
  = if N.eqb c JS.CR && N.eqb d JS.LF
    then JS.LF :: normalizeLineEndings rest
    else c :: normalizeLineEndings (d :: rest).
Proof. reflexivity. Qed.

(** X14. The texts that [normalizeLineEndings] leaves as they are are those
    in which no CR is followed by LF. *)
Theorem normalizeLineEndings_fixed_iff (text : jsstring) :
  normalizeLineEndings text = text
  <-> JS.includes text [JS.CR; JS.LF] = false.
Proof.
  induction text as [|c text IH]; [done|].
  rewrite includes_cons. destruct text as [|d rest].
  { rewrite includes_nil_l. cbn. by rewrite andb_false_r. }
  rewrite normalizeLineEndings_two. cbn [JS.startsWith].
  destruct (N.eqb c JS.CR) eqn:Hc; destruct (N.eqb d JS.LF) eqn:Hd;
    cbn [andb orb].
  - apply N.eqb_eq in Hc as ->. split; [intros [=] | done].
  - rewrite <- IH. split; [by intros [=] | by intros ->].
  - rewrite <- IH. split; [by intros [=] | by intros ->].
  - rewrite <- IH. split; [by intros [=] | by intros ->].
Qed.

Lemma splitAux_cons (sep c : N) (cur s : jsstring) :
  JS.splitAux sep cur (c :: s)
  = if N.eqb c sep then reverse cur :: JS.splitAux sep [] s
    else JS.splitAux sep (c :: cur) s.
Proof. reflexivity. Qed.

(** X15. [normalizeLineEndings] keeps the number of lines of a text. *)
Theorem normalizeLineEndings_line_count (text : jsstring) :
  length (lines (normalizeLineEndings text)) = length (lines text).
Proof.
  unfold lines, JS.split. generalize (@nil N) as cur.
  induction text as [|c text IH]; intros cur; [done|].
  destruct (decide (c = JS.CR)) as [->|Hc].
  - destruct text as [|d rest]; [done|].
    rewrite normalizeLineEndings_two, N.eqb_refl. cbn [andb].
    rewrite (splitAux_cons _ JS.CR cur (d :: rest)).
    replace (N.eqb JS.CR JS.LF) with false by done.
    destruct (N.eqb d JS.LF) eqn:Hd.
    + apply N.eqb_eq in Hd as ->.
      specialize (IH cur). rewrite normalizeLineEndings_cons in IH by done.
      rewrite !splitAux_cons in *.
      replace (N.eqb JS.LF JS.LF) with true in * by done.
      cbn [length] in *. done.
    + rewrite splitAux_cons.
      replace (N.eqb JS.CR JS.LF) with false by done.
      apply IH.
  - rewrite normalizeLineEndings_cons by done. rewrite !splitAux_cons.
    destruct (N.eqb c JS.LF); [cbn [length]; f_equal; apply IH | apply IH].
Qed.

(** ** The patch engine *)

Lemma indexOf_first (s p : jsstring) (i : nat) :
  JS.indexOf s p = Some i ->
  forall before after, s = before ++ p ++ after -> i <= length before.
Proof.
  revert i. induction s as [|a s IH]; intros i; cbn [JS.indexOf].
  - destruct (JS.startsWith [] p); [|done]. intros [= <-] ? ? _. lia.
  - destruct (JS.startsWith (a :: s) p) eqn:Hp; [intros [= <-] ? ? _; lia|].
    destruct (JS.indexOf s p) as [i'|] eqn:Hi; [|done].
    intros [= <-] before after Hs. destruct before as [|b before].
    + exfalso. cbn [app] in Hs.
      assert (JS.startsWith (a :: s) p = true) as Htrue; [|congruence].
      apply startsWith_prefix. rewrite Hs. by exists after.
    + injection Hs as -> ->. cbn [length].
      specialize (IH i' eq_refl before after eq_refl). lia.
Qed.

(** X16. An edit whose old text occurs verbatim replaces its first
    occurrence and nothing else: what stands before and after it is kept.
    What replaces it is the new text, with CR LF as LF, whenever that text
    holds no dollar sign. *)
Theorem applyEdit_exact_first_occurrence (content before after : jsstring)
  (edit : Edit) :
  content = before ++ normalizeLineEndings (oldText edit) ++ after ->
  (forall before' after',
     content = before' ++ normalizeLineEndings (oldText edit) ++ after' ->
     length before <= length before') ->
  exists replacement,
    applyEdit content edit = Ok (before ++ replacement ++ after) /\
    (JS.DOLLAR ∉ normalizeLineEndings (newText edit) ->
     replacement = normalizeLineEndings (newText edit)).
Proof.
  intros Hcontent Hfirst.
  assert (JS.includes content (normalizeLineEndings (oldText edit)) = true)
    as Hinc by (apply includes_occursIn; by exists before, after).
  unfold applyEdit, JS.replace. rewrite Hinc.
  unfold JS.includes in Hinc.
  destruct (JS.indexOf content (normalizeLineEndings (oldText edit)))
    as [i|] eqn:Hi; [|done].
  pose proof (indexOf_Some _ _ _ Hi) as Hsplit.
  pose proof (indexOf_first _ _ _ Hi before after Hcontent) as Hle.
  pose proof (Hfirst _ _ Hsplit) as Hge.
  rewrite length_take in Hge.
  assert (i = length before) as -> by lia.
  assert (take (length before) content = before) as Htake
    by (rewrite Hcontent; by rewrite take_app_length).
  assert (drop (length before + length (normalizeLineEndings (oldText edit)))
            content = after) as Hdrop.
  { rewrite Hcontent, app_assoc, <- length_app. by rewrite drop_app_length. }
  rewrite Htake, Hdrop. eexists. split; [reflexivity|].
  apply getSubstitution_no_dollar.
Qed.

Lemma applyEdit_exact_first_occurrence_witness :
  exists replacement,
    applyEdit (js "foo bar bar") {| oldText := js "bar"; newText := js "baz" |}
    = Ok (js "foo " ++ replacement ++ js " bar") /\
    (JS.DOLLAR ∉ normalizeLineEndings (js "baz") ->
     replacement = normalizeLineEndings (js "baz")).
Proof.
  apply (applyEdit_exact_first_occurrence (js "foo bar bar") (js "foo ")
           (js " bar") {| oldText := js "bar"; newText := js "baz" |}).
  - vm_compute. reflexivity.
  - intros before' after' Hsplit.
    assert (JS.indexOf (js "foo bar bar") (js "bar") = Some 4) as Hi
      by (vm_compute; reflexivity).
    exact (indexOf_first _ _ _ Hi before' after' Hsplit).
Defined.

(** X17. The edits are applied one on the result of the other: a list of
    edits in two parts succeeds exactly when the first part succeeds and the
    second succeeds on what the first has left. *)
Theorem applyEdits_in_stages (content final : jsstring)
  (first second : list Edit) :
  applyEdits content (first ++ second) = Ok final
  <-> exists middle,
        applyEdits content first = Ok middle /\
        applyEdits middle second = Ok final.
Proof.
  rewrite applyEdits_app. split.
  - destruct (applyEdits content first) as [middle|]; [|done].
    intros Hsecond. by exists middle.
  - intros (middle & -> & Hsecond). done.
Qed.



(** A write that is rejected half-way leaves what it wrote: the run throws
    and the file is not as it was. *)
Example applyFileEdits_rejected_write :
  @applyFileEdits wholeTextDiff
    {| fileAt p := p; utf8Decode bytes := bytes;
       writeOutcome _ bytes := Rejected (Some (take 3 bytes)) |}
    exampleDisk exampleFile [ {| oldText := js "alpha"; newText := js "one" |} ]
    false
  = Some (Throw (SystemError exampleFile), {[ exampleFile := js "one" ]}).
Proof. vm_compute. reflexivity. Qed.

(** X19. After a run that returns and is no dry run, the file the path
    names holds the UTF-8 encoding of the text the edits give from its
    decoded content with CR LF as LF, a surrogate that stands alone written
    as U+FFFD, and every other file is as it was. *)
Theorem applyFileEdits_writes_result `{DiffPackage} `{FileSystem}
  (disk disk' : Disk) (filePath formatted : jsstring) (edits : list Edit) :
  applyFileEdits disk filePath edits false = Some (Ok formatted, disk') ->
  exists raw modifiedContent,
    disk !! fileAt filePath = Some raw /\
    applyEdits (normalizeLineEndings (utf8Decode raw)) edits
    = Ok modifiedContent /\
    writeOutcome filePath (utf8Encode modifiedContent) = Fulfilled /\
    disk' !! fileAt filePath = Some (utf8Encode modifiedContent) /\
    forall other, other <> fileAt filePath -> disk' !! other = disk !! other.
Proof.
  unfold applyFileEdits.
  destruct (disk !! fileAt filePath) as [raw|] eqn:Hread; [|intros [=]].
  destruct (applyEdits (normalizeLineEndings (utf8Decode raw)) edits)
    as [modified|] eqn:Hedits; [|intros [=]].
  rewrite fenceLength_total. cbn [negb].
  destruct (writeOutcome filePath _) as [|[partial|]] eqn:Hwrite;
    [|intros [=] | intros [=]].
  intros [= _ <-].
  exists raw, modified. split; [done|]. split; [done|]. split; [done|]. split.
  - apply lookup_insert_eq.
  - intros other Hother. by apply lookup_insert_ne.
Qed.

Lemma applyFileEdits_writes_result_witness :
  exists raw modifiedContent,
    exampleDisk !! fileAt exampleFile = Some raw /\
    applyEdits (normalizeLineEndings (utf8Decode raw))
      [ {| oldText := js "beta"; newText := [55357%N] |} ]
    = Ok modifiedContent /\
    writeOutcome exampleFile (utf8Encode modifiedContent) = Fulfilled /\
    <[exampleFile := js "alpha" ++ [JS.LF] ++ js "  "
                     ++ [239; 191; 189; JS.LF]%N]>
      exampleDisk !! fileAt exampleFile
    = Some (utf8Encode modifiedContent) /\
    forall other, other <> fileAt exampleFile ->
      <[exampleFile := js "alpha" ++ [JS.LF] ++ js "  "
                       ++ [239; 191; 189; JS.LF]%N]>
        exampleDisk !! other = exampleDisk !! other.
Proof.
  apply (applyFileEdits_writes_result exampleDisk _ exampleFile
           (formatDiff 3
              (createUnifiedDiff
                 (js "alpha" ++ [JS.LF] ++ js "  beta" ++ [JS.LF])
                 (js "alpha" ++ [JS.LF] ++ js "  " ++ [55357%N; JS.LF])
                 exampleFile))
           [ {| oldText := js "beta"; newText := [55357%N] |} ]).
  vm_compute. reflexivity.
Defined.

Lemma takeWhile_subset (f : N -> bool) (s : jsstring) (c : N) :
  c ∈ JS.takeWhile f s -> c ∈ s.
Proof.
  induction s as [|a s IH]; [done|]. cbn [JS.takeWhile].
  destruct (f a); [|by intros ?%elem_of_nil].
  intros [->|Hin]%elem_of_cons; [apply list_elem_of_here|].
  apply list_elem_of_further. by apply IH.
Qed.

Lemma dropWhile_subset (f : N -> bool) (s : jsstring) (c : N) :
  c ∈ JS.dropWhile f s -> c ∈ s.
Proof.
  induction s as [|a s IH]; [done|]. cbn [JS.dropWhile].
  destruct (f a); [|done]. intros Hin. apply list_elem_of_further. by apply IH.
Qed.

Lemma replacementLine_no_newline (originalIndent : jsstring)
  (oldLines : list jsstring) (j : nat) (line : jsstring) :
  JS.LF ∉ originalIndent -> JS.LF ∉ line ->
  JS.LF ∉ replacementLine originalIndent oldLines j line.
Proof.
  intros Hindent Hline. unfold replacementLine.
  assert (JS.LF ∉ JS.trimStart line) as Htrim
    by (intros Hin; by apply Hline, (dropWhile_subset JS.isWhiteSpace)).
  destruct j as [|j].
  - rewrite elem_of_app. tauto.
  - destruct (match oldLines !! S j with
              | Some oldLine => JS.leadingWhiteSpace oldLine
              | None => []
              end); [done|].
    destruct (JS.leadingWhiteSpace line); [done|].
    rewrite !elem_of_app. intros [?|[Hspace|?]]; [tauto| |tauto].
    unfold JS.repeat in Hspace. apply elem_of_replicate in Hspace as [Heq _].
    discriminate Heq.
Qed.

(** X20. A replacement by a window keeps the lines of the content outside
    the window and puts in its place as many lines as the new text has: the
    lines of the result are those before the window, the new lines, and
    those after the window. *)
Theorem applyEdit_fuzzy_lines (content : jsstring) (edit : Edit) (i : nat) :
  ~ occursIn (normalizeLineEndings (oldText edit)) content ->
  windowMatchesAt (lines (normalizeLineEndings (oldText edit)))
                  (lines content) i ->
  (forall k, k < i ->
     ~ windowMatchesAt (lines (normalizeLineEndings (oldText edit)))
                       (lines content) k) ->
  exists modifiedContent newLines,
    applyEdit content edit = Ok modifiedContent /\
    length newLines = length (lines (normalizeLineEndings (newText edit))) /\
    lines modifiedContent
    = take i (lines content) ++ newLines
      ++ drop (i + length (lines (normalizeLineEndings (oldText edit))))
           (lines content).
Proof.
  intros Hexact Hmatch Hfirst. unfold lines in *.
  unfold applyEdit.
  destruct (JS.includes content (normalizeLineEndings (oldText edit))) eqn:Hinc.
  { by apply includes_occursIn in Hinc. }
  rewrite (windowLoop_first _ _ i) by done.
  unfold replaceWindow.
  set (originalIndent :=
         match JS.split JS.LF content !! i with
         | Some first => JS.leadingWhiteSpace first
         | None => []
         end).
  set (newLines :=
         imap (replacementLine originalIndent
                 (JS.split JS.LF (normalizeLineEndings (oldText edit))))
           (JS.split JS.LF (normalizeLineEndings (newText edit)))).
  exists (JS.join [JS.LF]
            (take i (JS.split JS.LF content) ++ newLines
             ++ drop (i + length (JS.split JS.LF
                                    (normalizeLineEndings (oldText edit))))
                  (JS.split JS.LF content))), newLines.
  split; [done|]. split; [apply length_imap|].
  pose proof (split_no_sep JS.LF content) as Hcontent.
  assert (JS.LF ∉ originalIndent) as Hindent.
  { unfold originalIndent.
    destruct (JS.split JS.LF content !! i) as [first|] eqn:Hi;
      [|apply not_elem_of_nil].
    intros Hin%takeWhile_subset.
    rewrite Forall_forall in Hcontent.
    apply (Hcontent first); [|done]. by eapply list_elem_of_lookup_2. }
  assert (Forall (fun seg => JS.LF ∉ seg) newLines) as HnewLines.
  { apply Forall_forall. intros line [j [y [-> Hy]]]%elem_of_lookup_imap_1.
    apply replacementLine_no_newline; [done|].
    pose proof (split_no_sep JS.LF (normalizeLineEndings (newText edit)))
      as Hnew.
    rewrite Forall_forall in Hnew. apply Hnew. by eapply list_elem_of_lookup_2. }
  apply split_join.
  - destruct (split_cons JS.LF (normalizeLineEndings (newText edit)))
      as (newFirst & newRest & Hnew).
    unfold newLines. rewrite Hnew, imap_cons. intros Hnil.
    apply app_eq_nil in Hnil as [_ Hnil]. discriminate Hnil.
  - apply Forall_app. split; [by apply Forall_take|].
    apply Forall_app. split; [done | by apply Forall_drop].
Qed.

Lemma applyEdit_fuzzy_lines_witness :
  exists modifiedContent newLines,
    applyEdit exampleSource exampleEdit = Ok modifiedContent /\
    length newLines = length (lines (normalizeLineEndings (newText exampleEdit)))
    /\ lines modifiedContent
       = take 1 (lines exampleSource) ++ newLines
         ++ drop (1 + length (lines (normalizeLineEndings
                                       (oldText exampleEdit))))
              (lines exampleSource).
Proof.
  apply (applyEdit_fuzzy_lines exampleSource exampleEdit 1).
  - apply includes_false_not_occursIn. vm_compute. reflexivity.
  - apply windowMatchesAt_test. vm_compute. split; [lia | reflexivity].
  - intros k Hk [_ Htest]%windowMatchesAt_test.
    assert (k = 0) as -> by lia. vm_compute in Htest. discriminate Htest.
Defined.

(** X21. The fence [applyFileEdits] puts around the diff does not occur in
    the diff, and is the shortest run of three backticks or more that does
    not. *)
Theorem applyFileEdits_fence_not_in_diff `{DiffPackage} `{FileSystem}
  (disk disk' : Disk) (filePath formatted : jsstring) (edits : list Edit)
  (dryRun : bool) :
  applyFileEdits disk filePath edits dryRun = Some (Ok formatted, disk') ->
  exists numBackticks diff,
    formatted = formatDiff numBackticks diff /\
    3 <= numBackticks /\
    JS.includes diff (JS.repeat JS.BACKTICK numBackticks) = false /\
    forall shorter, 3 <= shorter < numBackticks ->
      JS.includes diff (JS.repeat JS.BACKTICK shorter) = true.
Proof.
  unfold applyFileEdits.
  destruct (disk !! fileAt filePath) as [raw|]; [|intros [=]].
  destruct (applyEdits (normalizeLineEndings (utf8Decode raw)) edits)
    as [modified|]; [|intros [=]].
  rewrite fenceLength_total. intros Hrun.
  eexists _, (createUnifiedDiff (normalizeLineEndings (utf8Decode raw))
                modified filePath).
  split.
  { destruct dryRun; cbn [negb] in Hrun; [by injection Hrun as <- _|].
    destruct (writeOutcome filePath _) as [|[partial|]];
      [by injection Hrun as <- _ | discriminate Hrun | discriminate Hrun]. }
  split; [lia|]. unfold JS.repeat. split.
  - apply not_true_is_false. rewrite includes_replicate. lia.
  - intros shorter Hshorter. apply includes_replicate. lia.
Qed.

Lemma applyFileEdits_fence_not_in_diff_witness :
  exists numBackticks diff,
    formatDiff 5
      (createUnifiedDiff
         (js "alpha" ++ [JS.LF] ++ js "  beta" ++ [JS.LF])
         (js "````" ++ [JS.LF] ++ js "  beta" ++ [JS.LF]) exampleFile)
    = formatDiff numBackticks diff /\
    3 <= numBackticks /\
    JS.includes diff (JS.repeat JS.BACKTICK numBackticks) = false /\
    forall shorter, 3 <= shorter < numBackticks ->
      JS.includes diff (JS.repeat JS.BACKTICK shorter) = true.
Proof.
  apply (applyFileEdits_fence_not_in_diff exampleDisk exampleDisk exampleFile
           _ [ {| oldText := js "alpha"; newText := js "````" |} ] true).
  vm_compute. reflexivity.
Defined.

(** ** The arguments of [ffmpeg] *)

Lemma pushMetadata_drops_remix (ext : jsstring)
  (tags : list (jsstring * jsstring)) (ffmpegArgs : list jsstring) :
  ext <> js ".mp3" -> ext <> js ".flac" ->
  pushMetadata ext tags ffmpegArgs
  = pushMetadata ext (filter (fun tag => tag.1 <> js "remix") tags) ffmpegArgs.
Proof.
  intros Hmp3 Hflac. revert ffmpegArgs.
  induction tags as [|[key value] tags IH]; intros ffmpegArgs; [done|].
  cbn [pushMetadata]. destruct (decide (key = js "remix")) as [->|Hkey].
  - rewrite bool_decide_eq_true_2 by done.
    rewrite !bool_decide_eq_false_2 by done.
    rewrite filter_cons_False by (cbn; intros Hne; by apply Hne).
    apply IH.
  - rewrite filter_cons_True by done. cbn [pushMetadata].
    rewrite !(bool_decide_eq_false_2 (key = js "remix")) by done. apply IH.
Qed.

(** X22. For a file that is neither [.mp3] nor [.flac], the tag [remix] is
    left out without a word: [ffmpeg] is run with the arguments it would get
    for the tags without it. *)
Theorem ffmpegArguments_drops_remix (validPath ext tmpPath : jsstring)
  (tags : list (jsstring * jsstring)) :
  ext <> js ".mp3" -> ext <> js ".flac" ->
  ffmpegArguments validPath ext tmpPath tags
  = ffmpegArguments validPath ext tmpPath
      (filter (fun tag => tag.1 <> js "remix") tags).
Proof.
  intros Hmp3 Hflac. unfold ffmpegArguments.
  by rewrite pushMetadata_drops_remix.
Qed.

Lemma ffmpegArguments_drops_remix_witness :
  ffmpegArguments (js "/allowed/song.ogg") (js ".ogg")
    (js "/allowed/tmp/song.ogg")
    [ (js "artist", js "A"); (js "remix", js "Club mix") ]
  = ffmpegArguments (js "/allowed/song.ogg") (js ".ogg")
      (js "/allowed/tmp/song.ogg")
      (filter (fun tag => tag.1 <> js "remix")
         [ (js "artist", js "A"); (js "remix", js "Club mix") ]).
Proof.
  apply ffmpegArguments_drops_remix.
  - vm_compute. discriminate.
  - vm_compute. discriminate.
Defined.

(** ** The permissions of a file *)

Lemma toOctalFuel_enough (fuel fuel' : nat) (n : N) :
  N.to_nat n < fuel -> N.to_nat n < fuel' ->
  toOctalFuel fuel n = toOctalFuel fuel' n.
Proof.
  revert fuel' n. induction fuel as [|fuel IH]; intros fuel' n Hfuel Hfuel';
    [lia|].
  destruct fuel' as [|fuel']; [lia|]. cbn [toOctalFuel].
  destruct (N.ltb_spec n 8) as [Hsmall|Hbig]; [done|].
  f_equal. assert (n / 8 < n)%N by (apply N.div_lt; lia).
  apply IH; lia.
Qed.

Lemma toOctal_step (n : N) :
  (8 <= n)%N -> toOctal n = toOctal (n / 8) ++ [(48 + n mod 8)%N].
Proof.
  intros Hbig. unfold toOctal at 1. cbn [toOctalFuel].
  destruct (N.ltb_spec n 8) as [Hsmall|_]; [lia|].
  f_equal. assert (n / 8 < n)%N by (apply N.div_lt; lia).
  apply toOctalFuel_enough; lia.
Qed.

Lemma toOctal_last (n : N) :
  exists digits, toOctal n = digits ++ [(48 + n mod 8)%N].
Proof.
  destruct (N.ltb_spec n 8) as [Hsmall|Hbig].
  - exists []. unfold toOctal. cbn [toOctalFuel].
    destruct (N.ltb_spec n 8) as [_|?]; [|lia].
    by rewrite N.mod_small.
  - eexists. by apply toOctal_step.
Qed.

(** X23. For a mode of at least 64 (octal 100), [permissions] is made of the
    three lowest octal digits of the mode, those of the owner, the group and
    the others: the bits above them, the type of the file among them, are
    left out. *)
Theorem permissions_low_digits (mode : N) :
  (64 <= mode)%N ->
  permissions mode
  = [(48 + (mode / 64) mod 8)%N; (48 + (mode / 8) mod 8)%N;
     (48 + mode mod 8)%N].
Proof.
  intros Hmode. unfold permissions, sliceLast.
  rewrite toOctal_step by lia.
  assert (8 <= mode / 8)%N as Hnext.
  { change 8%N with (64 / 8)%N at 1. by apply N.Div0.div_le_mono. }
  rewrite toOctal_step by done.
  rewrite N.Div0.div_div. change (8 * 8)%N with 64%N.
  destruct (toOctal_last (mode / 64)) as [digits ->].
  rewrite <- !app_assoc. cbn [app].
  rewrite length_app. cbn [length].
  replace (length digits + 3 - 3) with (length digits) by lia.
  by rewrite drop_app_length.
Qed.

Lemma permissions_low_digits_witness :
  permissions 33188
  = [(48 + (33188 / 64) mod 8)%N; (48 + (33188 / 8) mod 8)%N;
     (48 + 33188 mod 8)%N].
Proof. apply permissions_low_digits. vm_compute. discriminate. Defined.

(** The mode 100644 in octal gives 644. *)
Example permissions_regular_file : permissions 33188 = js "644".
Proof. vm_compute. reflexivity. Qed.

(** ** When an edit is found *)

(** X24. An edit is applied exactly when its old text, with CR LF as LF,
    occurs verbatim in the content or matches some window of its lines; in
    every other case, and in no other, the edit-not-found error is thrown. *)
Theorem applyEdit_succeeds_iff (content : jsstring) (edit : Edit) :
  (exists modifiedContent, applyEdit content edit = Ok modifiedContent)
  <-> occursIn (normalizeLineEndings (oldText edit)) content
      \/ exists i,
           windowMatchesAt (lines (normalizeLineEndings (oldText edit)))
                           (lines content) i.
Proof.
  unfold applyEdit, lines.
  destruct (JS.includes content (normalizeLineEndings (oldText edit))) eqn:Hinc.
  - apply includes_occursIn in Hinc. split; [by left | by eexists].
  - destruct (windowLoop (JS.split JS.LF (normalizeLineEndings (oldText edit)))
                (JS.split JS.LF content) 0
                (windowCount
                   (JS.split JS.LF (normalizeLineEndings (oldText edit)))
                   (JS.split JS.LF content))) as [found|] eqn:Hloop.
    + split; [|by eexists]. intros _. right. exists found.
      apply windowLoop_Some in Hloop as (Hrange & Hfound & _).
      apply windowMatchesAt_test. split; [lia | done].
    + split; [by intros [? [=]]|].
      intros [Hocc|[i Hmatch]].
      * apply includes_occursIn in Hocc. congruence.
      * by apply (windowLoop_None_no_match _ _ Hloop) in Hmatch.
Qed.

(** X25. When the write of the run that writes is fulfilled, a dry run
    returns what that run returns: the same fenced diff, or the same
    exception. *)
Theorem applyFileEdits_dry_run_previews `{DiffPackage} `{FileSystem}
  (disk : Disk) (filePath : jsstring) (edits : list Edit) :
  (forall raw modifiedContent,
     disk !! fileAt filePath = Some raw ->
     applyEdits (normalizeLineEndings (utf8Decode raw)) edits
     = Ok modifiedContent ->
     writeOutcome filePath (utf8Encode modifiedContent) = Fulfilled) ->
  fst <$> applyFileEdits disk filePath edits true
  = fst <$> applyFileEdits disk filePath edits false.
Proof.
  intros Hwrite. unfold applyFileEdits.
  destruct (disk !! fileAt filePath) as [raw|]; [|done].
  destruct (applyEdits (normalizeLineEndings (utf8Decode raw)) edits)
    as [modified|] eqn:Hedits; [|done].
  rewrite fenceLength_total. cbn [negb].
  by rewrite (Hwrite raw modified).
Qed.

Lemma applyFileEdits_dry_run_previews_witness :
  fst <$> applyFileEdits exampleDisk exampleFile
            [ {| oldText := js "beta"; newText := js "gamma" |} ] true
  = fst <$> applyFileEdits exampleDisk exampleFile
              [ {| oldText := js "beta"; newText := js "gamma" |} ] false.
Proof.
  apply (applyFileEdits_dry_run_previews exampleDisk exampleFile
           [ {| oldText := js "beta"; newText := js "gamma" |} ]).
  intros raw modifiedContent Hread Hedits. reflexivity.
Defined.

(** On a file that cannot be written the dry run returns the diff and the
    run that writes throws. *)
Example applyFileEdits_dry_run_read_only :
  (exists formatted,
     @applyFileEdits wholeTextDiff readOnlyFiles exampleDisk exampleFile
       [ {| oldText := js "beta"; newText := js "gamma" |} ] true
     = Some (Ok formatted, exampleDisk))
  /\ @applyFileEdits wholeTextDiff readOnlyFiles exampleDisk exampleFile
       [ {| oldText := js "beta"; newText := js "gamma" |} ] false
     = Some (Throw (SystemError exampleFile), exampleDisk).
Proof. split; [eexists|]; vm_compute; reflexivity. Qed.
